(** * scriptAssist: the task service and the in-process cache

    A shallow embedding of
      - [src/common/services/cache.service.ts]  (the TTL cache), and
      - [src/modules/tasks/tasks.service.ts]    (the task mutation and query
        service, in its later revision that also has [batchProcessTasks]),
    together with the properties of their specification.

    Asynchronous methods are embedded as computations in a state-and-exception
    monad: every [await] of the source is a sequencing point, a rejected
    promise is a thrown exception. *)

From Stdlib Require Import ZArith QArith String Ascii List Sorted Lia.
From stdpp Require Import gmap strings list sorting pretty infinite.

Local Open Scope string_scope.
Local Open Scope Z_scope.

(** ** Effects: state passing with exceptions *)

Module Eff.

(** What a JavaScript [throw] carries in these two services. *)
Inductive Exn : Type :=
| Error (message : string)               (* new Error(message) *)
| SyntaxError                            (* raised by JSON.parse *)
| NotFoundException (message : string)   (* @nestjs/common *)
| StoreError (message : string).         (* a failure of the store driver *)

Inductive Outcome (A : Type) : Type :=
| Return (a : A)
| Throw (e : Exn).
Global Arguments Return {A} a.
Global Arguments Throw {A} e.

(** A computation over a state [S]: the state survives a throw, as the side
    effects of a JavaScript function survive its exception. *)
Definition M (S A : Type) : Type := S → Outcome A * S.

Definition ret {S A} (a : A) : M S A := λ s, (Return a, s).

Definition bind {S A B} (m : M S A) (k : A → M S B) : M S B :=
  λ s, match m s with
       | (Return a, s') => k a s'
       | (Throw e, s') => (Throw e, s')
       end.

Definition throw {S A} (e : Exn) : M S A := λ s, (Throw e, s).

(** [try { body } catch (error) { handler error }] *)
Definition try_catch {S A} (body : M S A) (handler : Exn → M S A) : M S A :=
  λ s, match body s with
       | (Return a, s') => (Return a, s')
       | (Throw e, s') => handler e s'
       end.

Definition gets {S A} (f : S → A) : M S A := λ s, (Return (f s), s).
Definition modify {S} (f : S → S) : M S unit := λ s, (Return tt, f s).

(** [for (const x of xs) { await body x }] *)
Fixpoint for_of {S A} (xs : list A) (body : A → M S unit) : M S unit :=
  match xs with
  | [] => ret tt
  | x :: xs' => bind (body x) (λ _, for_of xs' body)
  end.

(** [m] keeps the property [P] of the state, whether it returns or throws. *)
Definition preserves {S A} (P : S → Prop) (m : M S A) : Prop :=
  ∀ s, P s → P (m s).2.

End Eff.
Import Eff.

Declare Scope eff_scope.
Delimit Scope eff_scope with eff.
Notation "x ←' m ; k" := (bind m (λ x, k))
  (at level 100, m at next level, right associativity) : eff_scope.
Notation "m ;;' k" := (bind m (λ _, k))
  (at level 100, right associativity) : eff_scope.
Local Open Scope eff_scope.

(** ** JavaScript values and the JSON round trip *)

Module Js.

(** A JavaScript number: the three non-finite doubles, negative zero, and
    the other finite doubles, each of which is a rational. *)
Inductive JsNumber : Type :=
| NaN
| Infinity
| NegInfinity
| NegZero
| Finite (q : Q).

(** The values a caller can hand to the cache ([value: any]): primitives,
    functions, [Date] objects, arrays and plain objects. A plain object is
    the list of its own enumerable properties in enumeration order; a
    [Date] is given by the ISO string its [toJSON] returns ([None] for an
    invalid date, whose [toJSON] returns [null]). Object graphs with cycles
    are outside this type: [JSON.stringify] throws on them. *)
#[warnings="-register-all"] Inductive JsVal : Type :=
| VUndefined
| VNull
| VBool (b : bool)
| VNum (n : JsNumber)
| VStr (s : string)
| VFunction (name : string)
| VDate (iso : option string)
| VArr (items : list JsVal)
| VObj (props : list (string * JsVal)).

(** A JSON document. [JSON.stringify] returns the text of such a document
    and [JSON.parse] reads it back: the text stands here for the document
    it denotes. *)
#[warnings="-register-all"] Inductive Json : Type :=
| JNull
| JBool (b : bool)
| JNum (q : Q)
| JStr (s : string)
| JArr (items : list Json)
| JObj (members : list (string * Json)).

(** SerializeJSONProperty: [None] is the [undefined] that [JSON.stringify]
    returns for [undefined] and for functions. In an array such an element
    is written as [null]; in an object the property is left out. *)
Fixpoint serialize (v : JsVal) : option Json :=
  match v with
  | VUndefined | VFunction _ => None
  | VNull => Some JNull
  | VBool b => Some (JBool b)
  | VNum (Finite q) => Some (JNum q)
  | VNum NegZero => Some (JNum 0%Q)
  | VNum _ => Some JNull
  | VStr s => Some (JStr s)
  | VDate (Some iso) => Some (JStr iso)
  | VDate None => Some JNull
  | VArr items =>
      Some (JArr (List.map (λ x, match serialize x with
                                 | Some j => j
                                 | None => JNull
                                 end) items))
  | VObj props =>
      Some (JObj ((fix members (ps : list (string * JsVal)) :=
                     match ps with
                     | [] => []
                     | (k, x) :: ps' =>
                         match serialize x with
                         | Some j => (k, j) :: members ps'
                         | None => members ps'
                         end
                     end) props))
  end.

Fixpoint deserialize (j : Json) : JsVal :=
  match j with
  | JNull => VNull
  | JBool b => VBool b
  | JNum q => VNum (Finite q)
  | JStr s => VStr s
  | JArr items => VArr (List.map deserialize items)
  | JObj members => VObj (List.map (λ '(k, x), (k, deserialize x)) members)
  end.

(** What [serialize] writes for an element of an array and for the
    properties of an object, and what [deserialize] builds for a member. *)
Definition element_of (x : JsVal) : Json := default JNull (serialize x).

Definition members_of (props : list (string * JsVal)) : list (string * Json) :=
  omap (λ p, pair p.1 <$> serialize p.2) props.

Definition property_of (m : string * Json) : string * JsVal :=
  (m.1, deserialize m.2).

Definition JSON_stringify (value : JsVal) : option Json := serialize value.

(** [JSON.parse(undefined)] converts its argument to the string
    ["undefined"], which is no JSON text: a [SyntaxError]. *)
Definition JSON_parse (text : option Json) : Outcome JsVal :=
  match text with
  | Some j => Return (deserialize j)
  | None => Throw SyntaxError
  end.

(** [JSON.parse(JSON.stringify(value))], the copy the cache makes. *)
Definition json_clone (value : JsVal) : Outcome JsVal :=
  JSON_parse (JSON_stringify value).

(** The values the copy leaves as they are. *)
Fixpoint json_representable (v : JsVal) : bool :=
  match v with
  | VNull | VBool _ | VStr _ | VNum (Finite _) => true
  | VNum _ | VUndefined | VFunction _ | VDate _ => false
  | VArr items => forallb json_representable items
  | VObj props => forallb (λ p, json_representable (snd p)) props
  end.

End Js.
Import Js.

(** ** The cache service ([cache.service.ts])

    The calls of the logger have no part in what the methods return or
    store and are left out. *)

Module CacheService.

(** References to JavaScript values. Every value a caller passes or
    receives lives in a cell of the process heap, so that "the same
    object" and "a copy of it" are different things in the model as they
    are in the program. *)
Definition loc : Type := positive.

(** [interface CacheItem { value: any; expiresAt: number }] *)
Record CacheItem : Type := { value : loc; expiresAt : Z }.

(** The process heap and the service's [cache: Map<string, CacheItem>]. *)
Record State : Type := {
  heap : gmap loc JsVal;
  cache : gmap string CacheItem;
}.

Definition deref (h : gmap loc JsVal) (l : loc) : JsVal :=
  default VUndefined (h !! l).

(** Allocation of a new object: a reference no live cell has. *)
Definition alloc (v : JsVal) : M State loc :=
  λ st, let l := fresh (dom (heap st)) in
        (Return l, {| heap := <[l := v]> (heap st); cache := cache st |}).

Definition with_cache (f : gmap string CacheItem → gmap string CacheItem)
    (st : State) : State :=
  {| heap := heap st; cache := f (cache st) |}.

(** [JSON.parse(JSON.stringify(value))]: reads the object behind [value]
    and builds the parsed copy as a new object. *)
Definition parse_stringify (value : loc) : M State loc :=
  v ←' gets (λ st, deref (heap st) value);
  match json_clone v with
  | Return copy => alloc copy
  | Throw e => throw e
  end.

Definition namespace : string := "app".

Definition namespacedKey (key : string) : string :=
  namespace ++ ":" ++ key.

(** [async set(key, value, ttlSeconds = 300)]; [now] is what [Date.now()]
    returns during the call. [typeof key !== 'string'] is false for every
    [key : string], which leaves the test for the empty key. *)
Definition set (now : Z) (key : string) (value : loc)
    (ttlSeconds : option Z) : M State unit :=
  let ttlSeconds := default 300 ttlSeconds in
  if bool_decide (key = "") then throw (Error "Invalid cache key")
  else
    safeValue ←' parse_stringify value;
    let expiresAt := now + ttlSeconds * 1000 in
    modify (with_cache
              <[namespacedKey key :=
                  {| value := safeValue; expiresAt := expiresAt |}]>).

(** [async get<T>(key)]: [None] is the [null] of the source. *)
Definition get (now : Z) (key : string) : M State (option loc) :=
  item ←' gets (λ st, cache st !! namespacedKey key);
  match item with
  | None => ret None
  | Some item =>
      if bool_decide (expiresAt item < now) then
        modify (with_cache (base.delete (namespacedKey key)));;'
        ret None
      else
        copy ←' parse_stringify (value item);
        ret (Some copy)
  end.

(** [async has(key)]: [!item || item.expiresAt < Date.now()]. *)
Definition has (now : Z) (key : string) : M State bool :=
  item ←' gets (λ st, cache st !! namespacedKey key);
  if match item with
     | None => true
     | Some item => bool_decide (expiresAt item < now)
     end
  then
    modify (with_cache (base.delete (namespacedKey key)));;'
    ret false
  else ret true.

(** [private cleanupExpired()], run by the timer of the constructor. *)
Definition cleanupExpired (now : Z) : M State unit :=
  modify (with_cache
            (filter (λ kv : string * CacheItem, ¬ expiresAt kv.2 < now))).

(** [async clear()] *)
Definition clear : M State unit := modify (with_cache (λ _, ∅)).

(** [async delete(key)]: whether an entry was there. *)
Definition delete (key : string) : M State bool :=
  exists_ ←' gets (λ st, bool_decide (is_Some (cache st !! namespacedKey key)));
  modify (with_cache (base.delete (namespacedKey key)));;'
  ret exists_.

(** What a caller does to an object it holds: any change of the cell. *)
Definition mutate (l : loc) (v : JsVal) (st : State) : State :=
  {| heap := <[l := v]> (heap st); cache := cache st |}.

(** The entry [set] writes at time [now] for the copy [l]. *)
Definition stored_item (now : Z) (ttlSeconds : option Z) (l : loc) : CacheItem :=
  {| value := l; expiresAt := now + default 300 ttlSeconds * 1000 |}.

End CacheService.

(** Concrete states of the cache. *)
Module CacheExamples.
Import CacheService.

(** An entry that expired a second ago, and a key that was never set. *)
Definition expired_state : State :=
  {| heap := {[ 1%positive := VObj [("a", VNum (Finite 1))] ]};
     cache := {[ "app:k" := {| value := 1%positive; expiresAt := 1000 |} ]} |}.

(** A caller that holds one object. *)
Definition caller_state (v : JsVal) : State :=
  {| heap := {[ 1%positive := v ]}; cache := ∅ |}.

Definition plain_object : JsVal :=
  VObj [("a", VNum (Finite 1)); ("tags", VArr [VStr "x"; VNull])].

Definition dated_object : JsVal :=
  VObj [("at", VDate (Some "2024-01-01T00:00:00.000Z"))].

Definition lossy_object : JsVal :=
  VObj [("a", VNum (Finite 1)); ("b", VUndefined);
        ("f", VFunction "f"); ("at", VDate (Some "2024-01-01T00:00:00.000Z"))].

End CacheExamples.

(** ** The task service ([tasks.service.ts]) *)

(** Modelled from the spec: [enums/task-status.enum.ts] and
    [enums/task-priority.enum.ts] are not among the sources; the members are
    the ones the specification names. *)
Inductive TaskStatus : Type := PENDING | IN_PROGRESS | COMPLETED.
Inductive TaskPriority : Type := LOW | MEDIUM | HIGH.

Global Instance TaskStatus_eq_dec : EqDecision TaskStatus.
Proof. solve_decision. Defined.
Global Instance TaskPriority_eq_dec : EqDecision TaskPriority.
Proof. solve_decision. Defined.

(** Modelled from the spec: [entities/task.entity.ts] is not among the
    sources. A task has an identity, title, description, status, priority,
    owning user and the two timestamps. The same record is a row of the table
    and an entity object in memory; a field the store generates or defaults
    ([id], [status], [priority], the timestamps) is [None] on an object that
    was not saved yet, and [description] is optional. *)
Module Task.
Record t : Type := {
  id : option string;
  title : string;
  description : option string;
  status : option TaskStatus;
  priority : option TaskPriority;
  userId : string;
  createdAt : option Z;
  updatedAt : option Z;
}.
Global Instance eq_dec : EqDecision t.
Proof. solve_decision. Defined.
End Task.

(** Modelled from the spec: [dto/create-task.dto.ts] is not among the
    sources; the input of [create] carries the task's title, an optional
    description, status and priority, and the owner's id. *)
Module CreateTaskDto.
Record t : Type := {
  title : string;
  description : option string;
  status : option TaskStatus;
  priority : option TaskPriority;
  userId : string;
}.
End CreateTaskDto.

(** Modelled from the spec: [dto/update-task.dto.ts] is not among the
    sources; a patch has each field of the input of [create], optionally.
    [None] is a property the patch object does not have. *)
Module UpdateTaskDto.
Record t : Type := {
  title : option string;
  description : option string;
  status : option TaskStatus;
  priority : option TaskPriority;
  userId : option string;
}.
End UpdateTaskDto.

Inductive SortOrder : Type := ASC | DESC.

(** [TaskFilterDto extends PaginationParams]. [dateFrom] and [dateTo] are the
    instants their date strings denote; [@IsDateString] leaves no empty one,
    so a present bound is truthy. *)
Module TaskFilterDto.
Record t : Type := {
  page : option Z;
  limit : option Z;
  sortingOrder : option SortOrder;
  sortingColumn : option string;
  searchQuery : option string;
  status : option TaskStatus;
  priority : option TaskPriority;
  userId : option string;
  dateFrom : option Z;
  dateTo : option Z;
}.

End TaskFilterDto.

(** The ids the store generates: the first decimal numeral that is not a key
    of the table. *)
Global Instance string_infinite : Infinite string :=
  search_infinite (pretty : nat → string).

Module Store.

(** The payload of a [task-status-update] job. *)
Record StatusUpdate : Type := {
  taskId : option string;
  status : option TaskStatus;
}.

(** The calls that reach the query runner and the queue, in the order they
    are made. *)
Inductive Event : Type :=
| Connect
| StartTransaction
| CommitTransaction
| RollbackTransaction
| QueueAdd (name : string) (data : StatusUpdate).

Global Instance StatusUpdate_eq_dec : EqDecision StatusUpdate.
Proof. solve_decision. Defined.
Global Instance Event_eq_dec : EqDecision Event.
Proof. solve_decision. Defined.

(** How the store answers during one call of the service: the exception, if
    any, that the next [save] and the next [commitTransaction] raise. *)
Record Faults : Type := {
  save_raises : option Exn;
  commit_raises : option Exn;
}.

Definition loc : Type := positive.

(** The table of tasks by primary key, the ids of the users, the entity
    objects in memory, the history of calls (oldest first), and the
    store's clock. The service writes through [tasksRepository], not through
    the manager of its query runner: the table changes when [save], [delete]
    or a set-based statement runs, and the history tells what the runner was
    asked to do. *)
Record World : Type := {
  tasks : gmap string Task.t;
  users : gset string;
  objects : gmap loc Task.t;
  history : list Event;
  clock : Z;
  faults : Faults;
}.

Definition with_tasks (f : gmap string Task.t → gmap string Task.t)
    (w : World) : World :=
  {| tasks := f (tasks w); users := users w; objects := objects w;
     history := history w; clock := clock w; faults := faults w |}.

Definition with_objects (f : gmap loc Task.t → gmap loc Task.t)
    (w : World) : World :=
  {| tasks := tasks w; users := users w; objects := f (objects w);
     history := history w; clock := clock w; faults := faults w |}.

Definition record (e : Event) : M World unit :=
  modify (λ w, {| tasks := tasks w; users := users w; objects := objects w;
                  history := history w ++ [e]; clock := clock w;
                  faults := faults w |}).

(** The jobs on the queue: the [add] calls of the history. *)
Definition queue (w : World) : list (string * StatusUpdate) :=
  omap (λ e, match e with QueueAdd n d => Some (n, d) | _ => None end)
       (history w).

(** *** Query runner *)
Definition connect : M World unit := record Connect.
Definition startTransaction : M World unit := record StartTransaction.
Definition commitTransaction : M World unit :=
  f ←' gets (λ w, commit_raises (faults w));
  match f with
  | Some e => throw e
  | None => record CommitTransaction
  end.
Definition rollbackTransaction : M World unit := record RollbackTransaction.

(** *** Queue: [taskQueue.add(name, data)] *)
Definition queue_add (name : string) (data : StatusUpdate) : M World unit :=
  record (QueueAdd name data).

(** *** Entity objects *)
Definition new_object (o : Task.t) : M World loc :=
  λ w, let l := fresh (dom (objects w)) in
       (Return l, with_objects <[l := o]> w).

Definition read_object (l : loc) : M World Task.t :=
  o ←' gets (λ w, objects w !! l);
  match o with
  | Some o => ret o
  | None => throw (Error "Cannot read properties of undefined")
  end.

(** [Object.assign(task, updateTaskDto)]: writes the properties of the
    patch into the object [task] and returns that same object. *)
Definition merge (o : Task.t) (dto : UpdateTaskDto.t) : Task.t :=
  {| Task.id := Task.id o;
     Task.title := default (Task.title o) (UpdateTaskDto.title dto);
     Task.description :=
       match UpdateTaskDto.description dto with
       | Some d => Some d
       | None => Task.description o
       end;
     Task.status :=
       match UpdateTaskDto.status dto with
       | Some s => Some s
       | None => Task.status o
       end;
     Task.priority :=
       match UpdateTaskDto.priority dto with
       | Some p => Some p
       | None => Task.priority o
       end;
     Task.userId := default (Task.userId o) (UpdateTaskDto.userId dto);
     Task.createdAt := Task.createdAt o;
     Task.updatedAt := Task.updatedAt o |}.

Definition Object_assign (target : loc) (dto : UpdateTaskDto.t) : M World loc :=
  o ←' read_object target;
  modify (with_objects <[target := merge o dto]>);;'
  ret target.

(** *** Repository *)

(** The object [tasksRepository.create(entityLike)] builds from the input
    of [create]: nothing is generated or defaulted yet. *)
Definition entity_of (dto : CreateTaskDto.t) : Task.t :=
  {| Task.id := None;
     Task.title := CreateTaskDto.title dto;
     Task.description := CreateTaskDto.description dto;
     Task.status := CreateTaskDto.status dto;
     Task.priority := CreateTaskDto.priority dto;
     Task.userId := CreateTaskDto.userId dto;
     Task.createdAt := None;
     Task.updatedAt := None |}.

(** [tasksRepository.create(entityLike)]: a new entity object, not saved. *)
Definition repository_create (dto : CreateTaskDto.t) : M World loc :=
  new_object (entity_of dto).

(** The row an INSERT of the object [o] writes under the new key [i]. *)
Definition inserted_row (i : string) (now : Z) (o : Task.t) : Task.t :=
  {| Task.id := Some i;
     Task.title := Task.title o;
     Task.description := Task.description o;
     Task.status := Some (default PENDING (Task.status o));
     Task.priority := Some (default MEDIUM (Task.priority o));
     Task.userId := Task.userId o;
     Task.createdAt := Some now;
     Task.updatedAt := Some now |}.

(** The row an UPDATE of the row [old] from the object [o] writes. *)
Definition updated_row (old : Task.t) (now : Z) (o : Task.t) : Task.t :=
  {| Task.id := Task.id old;
     Task.title := Task.title o;
     Task.description := Task.description o;
     Task.status := Task.status o;
     Task.priority := Task.priority o;
     Task.userId := Task.userId o;
     Task.createdAt := Task.createdAt old;
     Task.updatedAt := Some now |}.

(** [tasksRepository.save(task)]: raises what the store raises, rejects an
    owner that is no user, updates the row of the object's id when there
    is one (and something changed), inserts a new row otherwise; writes
    the generated and defaulted columns back into the object and returns
    that same object. *)
Definition repository_save (task : loc) : M World loc :=
  f ←' gets (λ w, save_raises (faults w));
  match f with
  | Some e => throw e
  | None =>
      o ←' read_object task;
      known ←' gets (λ w, bool_decide (Task.userId o ∈ users w));
      if negb known then
        throw (StoreError "violates foreign key constraint")
      else
        old ←' gets (λ w, Task.id o ≫= λ i, pair i <$> tasks w !! i);
        now ←' gets clock;
        match old with
        | Some (i, old) =>
            if bool_decide (o = old) then ret task
            else
              let row := updated_row old now o in
              modify (with_tasks <[i := row]>);;'
              modify (with_objects <[task := row]>);;'
              ret task
        | None =>
            i ←' gets (λ w, default (fresh (dom (tasks w))) (Task.id o));
            let row := inserted_row i now o in
            modify (with_tasks <[i := row]>);;'
            modify (with_objects <[task := row]>);;'
            ret task
        end
  end.

(** [tasksRepository.findOne({ where: { id } })]: a new entity object for
    the row, or [None] for [null]. *)
Definition repository_findOne (id : string) : M World (option loc) :=
  row ←' gets (λ w, tasks w !! id);
  match row with
  | Some row => l ←' new_object row; ret (Some l)
  | None => ret None
  end.

(** [tasksRepository.delete(id)]: the number of rows affected. *)
Definition repository_delete (id : string) : M World nat :=
  affected ←' gets (λ w, match tasks w !! id with
                         | Some _ => 1%nat
                         | None => 0%nat
                         end);
  modify (with_tasks (base.delete id));;'
  ret affected.

(** *** Set-based statements of the query builder *)

(** [update(Task).set(..).where..execute()]: rewrites every row the
    predicate selects (the update date with it) and reports how many. *)
Definition execute_update (set : Task.t → Task.t)
    (selected : string → Task.t → bool) : M World nat :=
  affected ←' gets (λ w, size (filter (λ kv, selected kv.1 kv.2) (tasks w)));
  now ←' gets clock;
  modify (with_tasks
            (map_imap (λ k row,
               Some (if selected k row
                     then updated_row row now (set row)
                     else row))));;'
  ret affected.

(** [delete().from(Task).where..execute()] *)
Definition execute_delete (selected : string → Task.t → bool) : M World nat :=
  affected ←' gets (λ w, size (filter (λ kv, selected kv.1 kv.2) (tasks w)));
  modify (with_tasks (filter (λ kv, ¬ selected kv.1 kv.2)));;'
  ret affected.

End Store.

(** ** The select query builder *)

Module QueryBuilder.

(** The conditions [findAll] adds with [andWhere], with their parameters
    bound. *)
Inductive Condition : Type :=
| StatusEq (status : TaskStatus)            (* task.status = :status *)
| PriorityEq (priority : TaskPriority)      (* task.priority = :priority *)
| UserIdEq (userId : string)                (* task.userId = :userId *)
| TitleOrDescriptionLike (pattern : string) (* (task.title LIKE :p OR task.description LIKE :p) *)
| CreatedAtGe (dateFrom : Z)                (* task.createdAt >= :dateFrom *)
| CreatedAtLe (dateTo : Z).                 (* task.createdAt <= :dateTo *)

Record t : Type := {
  alias : string;
  wheres : list Condition;
  orderBys : option (string * SortOrder);
  offset : option Z;
  fetch : option Z;
}.

Definition createQueryBuilder (alias : string) : t :=
  {| alias := alias; wheres := []; orderBys := None;
     offset := None; fetch := None |}.

Definition andWhere (c : Condition) (qb : t) : t :=
  {| alias := alias qb; wheres := wheres qb ++ [c];
     orderBys := orderBys qb; offset := offset qb; fetch := fetch qb |}.

(** [orderBy(sort, order)]: the direction is ["ASC"] when [order] is
    [undefined]. *)
Definition orderBy (sort : string) (order : option SortOrder) (qb : t) : t :=
  {| alias := alias qb; wheres := wheres qb;
     orderBys := Some (sort, default ASC order);
     offset := offset qb; fetch := fetch qb |}.

Definition skip (n : Z) (qb : t) : t :=
  {| alias := alias qb; wheres := wheres qb; orderBys := orderBys qb;
     offset := Some n; fetch := fetch qb |}.

Definition take (n : Z) (qb : t) : t :=
  {| alias := alias qb; wheres := wheres qb; orderBys := orderBys qb;
     offset := offset qb; fetch := Some n |}.

(** SQL [LIKE]: [%] matches any run of characters, [_] any one. *)
Fixpoint like_chars (pattern text : list ascii) : bool :=
  match pattern with
  | [] => match text with [] => true | _ => false end
  | p :: pattern' =>
      if Ascii.eqb p "%" then
        (fix any_run (text : list ascii) : bool :=
           like_chars pattern' text ||
           match text with
           | [] => false
           | _ :: text' => any_run text'
           end) text
      else
        match text with
        | [] => false
        | c :: text' =>
            (Ascii.eqb p "_" || Ascii.eqb p c) && like_chars pattern' text'
        end
  end.

Definition like (text pattern : string) : bool :=
  like_chars (list_ascii_of_string pattern) (list_ascii_of_string text).

(** A comparison with NULL selects no row. *)
Definition holds (c : Condition) (row : Task.t) : bool :=
  match c with
  | StatusEq s => bool_decide (Task.status row = Some s)
  | PriorityEq p => bool_decide (Task.priority row = Some p)
  | UserIdEq u => bool_decide (Task.userId row = u)
  | TitleOrDescriptionLike pattern =>
      like (Task.title row) pattern ||
      match Task.description row with
      | Some d => like d pattern
      | None => false
      end
  | CreatedAtGe d =>
      match Task.createdAt row with
      | Some c => bool_decide (d ≤ c)%Z
      | None => false
      end
  | CreatedAtLe d =>
      match Task.createdAt row with
      | Some c => bool_decide (c ≤ d)%Z
      | None => false
      end
  end.

Definition selects (qb : t) (row : Task.t) : bool :=
  forallb (λ c, holds c row) (wheres qb).

(** The value of an ORDER BY expression on a row. The enumerations sort in
    the order of their declaration; an expression that names no column of
    the task has the same value on every row. *)
Inductive SqlValue : Type :=
| SqlInt (z : Z)
| SqlText (s : string)
| SqlNull.

Definition sql_text (o : option string) : SqlValue :=
  match o with Some s => SqlText s | None => SqlNull end.
Definition sql_int (o : option Z) : SqlValue :=
  match o with Some z => SqlInt z | None => SqlNull end.

Definition status_rank (s : TaskStatus) : Z :=
  match s with PENDING => 0 | IN_PROGRESS => 1 | COMPLETED => 2 end.
Definition priority_rank (p : TaskPriority) : Z :=
  match p with LOW => 0 | MEDIUM => 1 | HIGH => 2 end.

Definition column (sort : string) (row : Task.t) : SqlValue :=
  if String.eqb sort "task.id" then sql_text (Task.id row)
  else if String.eqb sort "task.title" then SqlText (Task.title row)
  else if String.eqb sort "task.description" then sql_text (Task.description row)
  else if String.eqb sort "task.status" then sql_int (status_rank <$> Task.status row)
  else if String.eqb sort "task.priority" then sql_int (priority_rank <$> Task.priority row)
  else if String.eqb sort "task.userId" then SqlText (Task.userId row)
  else if String.eqb sort "task.createdAt" then sql_int (Task.createdAt row)
  else if String.eqb sort "task.updatedAt" then sql_int (Task.updatedAt row)
  else SqlNull.

(** NULL sorts as the greatest value. *)
Definition sql_leb (a b : SqlValue) : bool :=
  match a, b with
  | _, SqlNull => true
  | SqlNull, _ => false
  | SqlInt x, SqlInt y => (x <=? y)%Z
  | SqlInt _, SqlText _ => true
  | SqlText _, SqlInt _ => false
  | SqlText x, SqlText y => String.leb x y
  end.

(** [a] may come before [b] in a result ordered by [sort] in [order]. *)
Definition precedes (by_ : option (string * SortOrder)) (a b : Task.t) : Prop :=
  match by_ with
  | Some (sort, ASC) => sql_leb (column sort a) (column sort b) = true
  | Some (sort, DESC) => sql_leb (column sort b) (column sort a) = true
  | None => True
  end.

Global Instance precedes_dec by_ : RelDecision (precedes by_).
Proof. intros a b. destruct by_ as [[sort []]|]; simpl; apply _. Defined.

(** [getManyAndCount()]: the rows the conditions select, ordered, then the
    window of [fetch] rows after the first [offset] (none skipped for an
    offset that is not positive); and the number of all selected rows. *)
Definition getManyAndCount (qb : t) : M Store.World (list Task.t * nat) :=
  rows ←' gets (λ w, (map_to_list (Store.tasks w)).*2);
  let selected := List.filter (selects qb) rows in
  let ordered := merge_sort (precedes (orderBys qb)) selected in
  let skipped :=
    match offset qb with
    | Some n => skipn (Z.to_nat n) ordered
    | None => ordered
    end in
  let entities :=
    match fetch qb with
    | Some n => firstn (Z.to_nat n) skipped
    | None => skipped
    end in
  ret (entities, length selected).

End QueryBuilder.

Module TasksService.
Import Store.

(** [async create(createTaskDto)]. The saved task is an object, hence
    truthy: the [if (savedTask)] of the source always takes its branch.
    [taskQueue.add] is called and not awaited. *)
Definition create (createTaskDto : CreateTaskDto.t) : M World loc :=
  connect;;'
  startTransaction;;'
  try_catch
    (task ←' repository_create createTaskDto;
     savedTask ←' repository_save task;
     saved ←' read_object savedTask;
     queue_add "task-status-update"
       {| taskId := Task.id saved; status := Task.status saved |};;'
     commitTransaction;;'
     ret savedTask)
    (λ error, rollbackTransaction;;' throw error).

(** A string is truthy unless it is empty. *)
Definition truthy (o : option string) : option string :=
  match o with
  | Some s => if bool_decide (s = "") then None else Some s
  | None => None
  end.

Definition when_present {A} (o : option A) (f : A → QueryBuilder.t → QueryBuilder.t)
    (qb : QueryBuilder.t) : QueryBuilder.t :=
  match o with
  | Some a => f a qb
  | None => qb
  end.

(** The [skip] of [findAll]: [(page - 1) * limit] with [page = 1] and
    [limit = 10] for absent fields. *)
Definition findAll_skip (payload : TaskFilterDto.t) : Z :=
  let page := default 1 (TaskFilterDto.page payload) in
  let limit := default 10 (TaskFilterDto.limit payload) in
  (page - 1) * limit.

(** The first argument of [orderBy]:
    [sortingColumn ? `task.${sortingColumn}` : 'task.id']. *)
Definition findAll_sort (payload : TaskFilterDto.t) : string :=
  match truthy (TaskFilterDto.sortingColumn payload) with
  | Some sortingColumn => "task." ++ sortingColumn
  | None => "task.id"
  end.

(** The query [findAll] builds before it runs it. The members of the two
    enumerations are non-empty strings, and so truthy when present. The
    owner that [leftJoinAndSelect] loads with each task adds no row and
    removes none, and is not part of the model. *)
Definition findAll_query (payload : TaskFilterDto.t) : QueryBuilder.t :=
  let limit := default 10 (TaskFilterDto.limit payload) in
  let skip := findAll_skip payload in
  let queryBuilder := QueryBuilder.createQueryBuilder "task" in
  let queryBuilder :=
    when_present (TaskFilterDto.status payload)
      (λ status, QueryBuilder.andWhere (QueryBuilder.StatusEq status))
      queryBuilder in
  let queryBuilder :=
    when_present (TaskFilterDto.priority payload)
      (λ priority, QueryBuilder.andWhere (QueryBuilder.PriorityEq priority))
      queryBuilder in
  let queryBuilder :=
    when_present (truthy (TaskFilterDto.userId payload))
      (λ userId, QueryBuilder.andWhere (QueryBuilder.UserIdEq userId))
      queryBuilder in
  let queryBuilder :=
    when_present (truthy (TaskFilterDto.searchQuery payload))
      (λ searchQuery,
         QueryBuilder.andWhere
           (QueryBuilder.TitleOrDescriptionLike ("%" ++ searchQuery ++ "%")))
      queryBuilder in
  let queryBuilder :=
    when_present (TaskFilterDto.dateFrom payload)
      (λ dateFrom, QueryBuilder.andWhere (QueryBuilder.CreatedAtGe dateFrom))
      queryBuilder in
  let queryBuilder :=
    when_present (TaskFilterDto.dateTo payload)
      (λ dateTo, QueryBuilder.andWhere (QueryBuilder.CreatedAtLe dateTo))
      queryBuilder in
  QueryBuilder.take limit
    (QueryBuilder.skip skip
       (QueryBuilder.orderBy (findAll_sort payload)
          (TaskFilterDto.sortingOrder payload) queryBuilder)).

(** [async findAll(payload)]: [(tasks, count)]. *)
Definition findAll (payload : TaskFilterDto.t) : M World (list Task.t * nat) :=
  QueryBuilder.getManyAndCount (findAll_query payload).

(** [async findOne(id)] *)
Definition findOne (id : string) : M World (option loc) :=
  repository_findOne id.

(** [async update(id, updateTaskDto)]. [updatedTask], [task] and
    [updatedTaskSave] are references to one object. *)
Definition update (id : string) (updateTaskDto : UpdateTaskDto.t)
    : M World (option loc) :=
  connect;;'
  startTransaction;;'
  try_catch
    (task ←' findOne id;
     match task with
     | None => ret None
     | Some task =>
         updatedTask ←' Object_assign task updateTaskDto;
         originalStatus ←' (o ←' read_object task; ret (Task.status o));
         updatedTaskSave ←' repository_save task;
         savedStatus ←' (o ←' read_object updatedTaskSave; ret (Task.status o));
         (if bool_decide (originalStatus ≠ savedStatus) then
            o ←' read_object updatedTask;
            queue_add "task-status-update"
              {| taskId := Task.id o; status := Task.status o |}
          else ret tt);;'
         commitTransaction;;'
         ret (Some updatedTaskSave)
     end)
    (λ error, rollbackTransaction;;' throw error).

(** [async remove(id)] *)
Definition remove (id : string) : M World string :=
  result ←' repository_delete id;
  if bool_decide (result = 0%nat) then
    throw (NotFoundException ("Task with ID " ++ id ++ " not found"))
  else ret ("Task with ID " ++ id ++ " deleted successfully").

Inductive BatchResult : Type :=
| Updated (affected : nat)   (* { updated: affected } *)
| Deleted (affected : nat).  (* { deleted: affected } *)

Definition complete (row : Task.t) : Task.t :=
  {| Task.id := Task.id row;
     Task.title := Task.title row;
     Task.description := Task.description row;
     Task.status := Some COMPLETED;
     Task.priority := Task.priority row;
     Task.userId := Task.userId row;
     Task.createdAt := Task.createdAt row;
     Task.updatedAt := Task.updatedAt row |}.

(** [status != :status]: a comparison with NULL selects no row. *)
Definition status_is_not (s : TaskStatus) (row : Task.t) : bool :=
  match Task.status row with
  | Some s' => bool_decide (s' ≠ s)
  | None => false
  end.

(** [async batchProcessTasks(taskIds, action)] *)
Definition batchProcessTasks (taskIds : list string) (action : string)
    : M World BatchResult :=
  if bool_decide (action = "complete") then
    updated ←' execute_update complete
                 (λ id row, bool_decide (id ∈ taskIds) &&
                            status_is_not COMPLETED row);
    for_of taskIds (λ taskId,
      queue_add "task-status-update"
        {| taskId := Some taskId; status := Some COMPLETED |});;'
    ret (Updated updated)
  else if bool_decide (action = "delete") then
    deleted ←' execute_delete (λ id _, bool_decide (id ∈ taskIds));
    ret (Deleted deleted)
  else throw (Error "Invalid action").

End TasksService.

(** Concrete worlds of the task service. *)
Module TaskExamples.
Import Store.

Definition row (id : string) (status : TaskStatus) (at_ : Z) : Task.t :=
  {| Task.id := Some id;
     Task.title := "task " ++ id;
     Task.description := None;
     Task.status := Some status;
     Task.priority := Some MEDIUM;
     Task.userId := "u1";
     Task.createdAt := Some at_;
     Task.updatedAt := Some at_ |}.

Definition no_faults : Faults :=
  {| save_raises := None; commit_raises := None |}.

(** Three tasks of the user ["u1"], the second one completed. *)
Definition three_tasks : World :=
  {| tasks := list_to_map [("1", row "1" PENDING 10);
                           ("2", row "2" COMPLETED 20);
                           ("3", row "3" IN_PROGRESS 30)];
     users := {["u1"]};
     objects := ∅;
     history := [];
     clock := 100;
     faults := no_faults |}.

Definition with_faults (f : Faults) (w : World) : World :=
  {| tasks := tasks w; users := users w; objects := objects w;
     history := history w; clock := clock w; faults := f |}.

Definition new_task (userId : string) : CreateTaskDto.t :=
  {| CreateTaskDto.title := "write the report";
     CreateTaskDto.description := None;
     CreateTaskDto.status := None;
     CreateTaskDto.priority := None;
     CreateTaskDto.userId := userId |}.

Definition status_patch (status : TaskStatus) : UpdateTaskDto.t :=
  {| UpdateTaskDto.title := None;
     UpdateTaskDto.description := None;
     UpdateTaskDto.status := Some status;
     UpdateTaskDto.priority := None;
     UpdateTaskDto.userId := None |}.

Definition no_filter : TaskFilterDto.t :=
  {| TaskFilterDto.page := None;
     TaskFilterDto.limit := None;
     TaskFilterDto.sortingOrder := None;
     TaskFilterDto.sortingColumn := None;
     TaskFilterDto.searchQuery := None;
     TaskFilterDto.status := None;
     TaskFilterDto.priority := None;
     TaskFilterDto.userId := None;
     TaskFilterDto.dateFrom := None;
     TaskFilterDto.dateTo := None |}.

Definition sorted_by (column : string) : TaskFilterDto.t :=
  {| TaskFilterDto.page := None;
     TaskFilterDto.limit := None;
     TaskFilterDto.sortingOrder := None;
     TaskFilterDto.sortingColumn := Some column;
     TaskFilterDto.searchQuery := None;
     TaskFilterDto.status := None;
     TaskFilterDto.priority := None;
     TaskFilterDto.userId := None;
     TaskFilterDto.dateFrom := None;
     TaskFilterDto.dateTo := None |}.

(** The second page of one task each, newest first, of the tasks created
    from instant 10 on whose title or description contains ["task"]. *)
Definition second_page : TaskFilterDto.t :=
  {| TaskFilterDto.page := Some 2;
     TaskFilterDto.limit := Some 1;
     TaskFilterDto.sortingOrder := Some DESC;
     TaskFilterDto.sortingColumn := Some "createdAt";
     TaskFilterDto.searchQuery := Some "task";
     TaskFilterDto.status := None;
     TaskFilterDto.priority := None;
     TaskFilterDto.userId := None;
     TaskFilterDto.dateFrom := Some 10;
     TaskFilterDto.dateTo := None |}.

End TaskExamples.

(** Notions the properties of the task service are stated with. *)
Module TaskSpec.
Import Store.

(** The exception [remove] raises for a missing task. *)
Definition not_found (id : string) : Exn :=
  NotFoundException ("Task with ID " ++ id ++ " not found").

(** The job that reports the status of a task. *)
Definition status_update (taskId : string) (status : TaskStatus)
    : string * StatusUpdate :=
  ("task-status-update", {| taskId := Some taskId; status := Some status |}).

(** The world in which [create] calls [save]: the query runner is
    connected, the transaction started, and the entity object built. *)
Definition before_save (dto : CreateTaskDto.t) (w : World) : World :=
  {| tasks := tasks w;
     users := users w;
     objects := <[fresh (dom (objects w)) := entity_of dto]> (objects w);
     history := history w ++ [Connect; StartTransaction];
     clock := clock w;
     faults := faults w |}.

(** Every row is stored under its own id. *)
Definition keyed (w : World) : Prop :=
  map_Forall (λ i row, Task.id row = Some i) (tasks w).

(** Modelled from the spec: the allow-list of sortable fields is in no
    source file; the specification asks for one without listing it, and
    the fields of a task are the candidates. *)
Definition sortable_fields : list string :=
  ["id"; "title"; "description"; "status"; "priority"; "userId";
   "createdAt"; "updatedAt"].

(** C4 as stated, for the allow-list [allowed]: a column that [findAll]
    writes into the ORDER BY expression is on the list. *)
Definition sort_column_allow_listed (allowed : list string) : Prop :=
  ∀ payload column,
    TaskFilterDto.sortingColumn payload = Some column →
    TasksService.findAll_sort payload = "task." ++ column →
    column ∈ allowed.

(** The conjunction of the filters that are present in a filter
    specification; an empty string counts as absent. *)
Definition matches (payload : TaskFilterDto.t) (row : Task.t) : bool :=
  match TaskFilterDto.status payload with
  | Some status => bool_decide (Task.status row = Some status)
  | None => true
  end &&
  match TaskFilterDto.priority payload with
  | Some priority => bool_decide (Task.priority row = Some priority)
  | None => true
  end &&
  match TaskFilterDto.userId payload with
  | Some userId =>
      bool_decide (userId = "") || bool_decide (Task.userId row = userId)
  | None => true
  end &&
  match TaskFilterDto.searchQuery payload with
  | Some searchQuery =>
      bool_decide (searchQuery = "") ||
      QueryBuilder.like (Task.title row) ("%" ++ searchQuery ++ "%") ||
      match Task.description row with
      | Some d => QueryBuilder.like d ("%" ++ searchQuery ++ "%")
      | None => false
      end
  | None => true
  end &&
  match TaskFilterDto.dateFrom payload, Task.createdAt row with
  | Some dateFrom, Some createdAt => bool_decide (dateFrom ≤ createdAt)
  | Some _, None => false
  | None, _ => true
  end &&
  match TaskFilterDto.dateTo payload, Task.createdAt row with
  | Some dateTo, Some createdAt => bool_decide (createdAt ≤ dateTo)
  | Some _, None => false
  | None, _ => true
  end.


End TaskSpec.

(** ** The rest of the task service: [find], [findByStatus], [updateStatus] *)

Module TasksServiceRest.
Import Store.

(** [tasksRepository.find({ where })]: the rows that satisfy [where], as
    values, in the order the store lists them. *)
Definition repository_find (where_ : Task.t → bool) : M World (list Task.t) :=
  gets (λ w, List.filter where_ (map_to_list (tasks w)).*2).

(** [async find()] *)
Definition find : M World (list Task.t) :=
  gets (λ w, (map_to_list (tasks w)).*2).

(** [async findByStatus(status)] *)
Definition findByStatus (status : TaskStatus) : M World (list Task.t) :=
  repository_find (λ row, bool_decide (Task.status row = Some status)).

(** [task.status = status] *)
Definition assign_status (status : TaskStatus) (o : Task.t) : Task.t :=
  {| Task.id := Task.id o;
     Task.title := Task.title o;
     Task.description := Task.description o;
     Task.status := Some status;
     Task.priority := Task.priority o;
     Task.userId := Task.userId o;
     Task.createdAt := Task.createdAt o;
     Task.updatedAt := Task.updatedAt o |}.

(** [async updateStatus(id, status)], the method the task processor calls.
    Its [status: string] is cast to the type of the column; here it is a
    member of the enumeration. *)
Definition updateStatus (id : string) (status : TaskStatus)
    : M World (option loc) :=
  task ←' TasksService.findOne id;
  match task with
  | None => ret None
  | Some task =>
      o ←' read_object task;
      modify (with_objects <[task := assign_status status o]>);;'
      saved ←' repository_save task;
      ret (Some saved)
  end.

End TasksServiceRest.

(** ** The response handlers ([response.handlers.ts]) *)

Module HttpStatus.
Definition CREATED : Z := 201.
Definition BAD_REQUEST : Z := 400.
Definition UNAUTHORIZED : Z := 401.
Definition CONFLICT : Z := 409.
Definition INTERNAL_SERVER_ERROR : Z := 500.
End HttpStatus.

Module ResponseHandlers.

(** The object an [HttpException] of the handlers carries. A field is [None]
    when the handler's object literal has no such property. *)
Record Body : Type := {
  statusCode : Z;
  error : string;
  message : string;
  errorCode : option string;
  data : option JsVal;
}.

(** [new HttpException(response, status)] *)
Record HttpException : Type := {
  response : Body;
  status : Z;
}.

(** What a controller method can throw: an exception of the service, or one
    of the handlers. *)
Inductive Thrown : Type :=
| FromService (e : Exn)
| Http (e : HttpException).

Inductive Result (A : Type) : Type :=
| Done (a : A)
| Raised (t : Thrown).
Global Arguments Done {A} a.
Global Arguments Raised {A} t.

(** A computation of the controller over the world of the service. *)
Definition C (A : Type) : Type := Store.World → Result A * Store.World.

Definition done {A} (a : A) : C A := λ w, (Done a, w).

Definition raise {A} (t : Thrown) : C A := λ w, (Raised t, w).

Definition and_then {A B} (m : C A) (k : A → C B) : C B :=
  λ w, match m w with
       | (Done a, w') => k a w'
       | (Raised t, w') => (Raised t, w')
       end.

(** [await this.tasksService.method(..)] *)
Definition call {A} (m : M Store.World A) : C A :=
  λ w, match m w with
       | (Return a, w') => (Done a, w')
       | (Throw e, w') => (Raised (FromService e), w')
       end.

(** [try { body } catch (error) { handler error }] *)
Definition catching {A} (body : C A) (handler : Thrown → C A) : C A :=
  λ w, match body w with
       | (Done a, w') => (Done a, w')
       | (Raised t, w') => handler t w'
       end.

(** The values JavaScript takes for false in [x || y]. *)
Definition falsy (v : JsVal) : bool :=
  match v with
  | VUndefined | VNull | VBool false | VStr "" => true
  | VNum NaN | VNum NegZero => true
  | VNum (Finite q) => Qeq_bool q 0
  | _ => false
  end.

(** [data || null] *)
Definition or_null (data : JsVal) : JsVal :=
  if falsy data then VNull else data.

(** [message || fallback] on strings *)
Definition or_else (message fallback : string) : string :=
  if bool_decide (message = "") then fallback else message.

(** [type TBadRequestParams = { errorCode: string; data?: any }]; a missing
    [data] is [undefined]. *)
Record TBadRequestParams : Type := {
  p_errorCode : string;
  p_data : JsVal;
}.

(** [res500(error, payload)] *)
Definition res500 {A} (name message : string) (payload : TBadRequestParams) : C A :=
  raise (Http
    {| response :=
         {| statusCode := HttpStatus.INTERNAL_SERVER_ERROR;
            error := name;
            message := or_else message "Internal Server Error";
            errorCode := Some (p_errorCode payload);
            data := Some (or_null (p_data payload)) |};
       status := HttpStatus.INTERNAL_SERVER_ERROR |}).

(** [duplicateRecordRes(message, data?)] *)
Definition duplicateRecordRes {A} (message : string) (data : JsVal) : C A :=
  raise (Http
    {| response :=
         {| statusCode := HttpStatus.CONFLICT;
            error := "Duplicate Entry";
            message := message;
            errorCode := None;
            data := Some (or_null data) |};
       status := HttpStatus.BAD_REQUEST |}).

(** [badRequestRes(message, payload)] *)
Definition badRequestRes {A} (message : string) (payload : TBadRequestParams) : C A :=
  raise (Http
    {| response :=
         {| statusCode := HttpStatus.BAD_REQUEST;
            error := "Bad Request";
            message := message;
            errorCode := Some (p_errorCode payload);
            data := Some (or_null (p_data payload)) |};
       status := HttpStatus.BAD_REQUEST |}).

(** [unAuthorizedRes(message?)]; a missing [message] is the empty string's
    case of [message || ..]. *)
Definition unAuthorizedRes {A} (message : string) : C A :=
  raise (Http
    {| response :=
         {| statusCode := HttpStatus.UNAUTHORIZED;
            error := "Forbidden";
            message := or_else message "Resource forbidden, access denied!";
            errorCode := Some "resource_forbidden_access_denied";
            data := None |};
       status := HttpStatus.BAD_REQUEST |}).

(** What [successRes] returns. *)
Record Success (A : Type) : Type := {
  s_data : A;
  s_statusCode : Z;
  s_message : string;
  s_error : bool;
}.
Global Arguments s_data {A} _.
Global Arguments s_statusCode {A} _.
Global Arguments s_message {A} _.
Global Arguments s_error {A} _.

(** [successRes(data?, message?)] *)
Definition successRes {A} (data : A) (message : string) : Success A :=
  {| s_data := data;
     s_statusCode := HttpStatus.CREATED;
     s_message := or_else message "Success";
     s_error := false |}.

(** [error.message] of what was thrown. An [HttpException] built from an
    object takes the string under [message] of that object. No method of the
    task service raises a [SyntaxError]; its message is the engine's. *)
Definition message_of (t : Thrown) : string :=
  match t with
  | FromService (Error m) => m
  | FromService (NotFoundException m) => m
  | FromService (StoreError m) => m
  | FromService SyntaxError => "Unexpected token"
  | Http e => message (response e)
  end.

End ResponseHandlers.

(** ** The controller ([tasks.controller.ts]) *)

Module TasksController.
Import Store ResponseHandlers.

Definition error_code (code : string) : TBadRequestParams :=
  {| p_errorCode := code; p_data := VUndefined |}.

(** [async create(createTaskDto)]; the task is an object, so [!task] is
    false. *)
Definition create (createTaskDto : CreateTaskDto.t) : C (Success loc) :=
  and_then (call (TasksService.create createTaskDto)) (λ task,
  done (successRes task "")).

(** [async findAll(query)] *)
Definition findAll (query : TaskFilterDto.t) : C (Success (list Task.t * nat)) :=
  and_then (call (TasksService.findAll query)) (λ '(tasks, count),
  done (successRes (tasks, count) "")).


Definition count (f : Task.t → bool) (tasks : list Task.t) : nat :=
  length (List.filter f tasks).


(** [async findOne(id)] *)
Definition findOne (id : string) : C (Success loc) :=
  and_then (call (TasksService.findOne id)) (λ task,
  match task with
  | None => badRequestRes "Task not found" (error_code "task_not_found")
  | Some task => done (successRes task "")
  end).

(** [async update(id, updateTaskDto)] *)
Definition update (id : string) (updateTaskDto : UpdateTaskDto.t) : C (Success loc) :=
  and_then (call (TasksService.update id updateTaskDto)) (λ updatedTask,
  match updatedTask with
  | None => badRequestRes "Failed to update task" (error_code "task_update_failed")
  | Some updatedTask => done (successRes updatedTask "")
  end).

(** [async remove(id)] *)
Definition remove (id : string) : C string :=
  call (TasksService.remove id).

(** [result] of one step of [batchProcess]: what [update] or [remove]
    returned. *)
Inductive StepResult : Type :=
| Updated (task : option loc)
| Removed (message : string).

(** An element of [results]: [{ taskId, success: true, result }] or
    [{ taskId, success: false, error }]. *)
Inductive ItemOutcome : Type :=
| Succeeded (result : StepResult)
| Failed (error : string).

Record Item : Type := {
  taskId : string;
  outcome : ItemOutcome;
}.

(** [{ status: TaskStatus.COMPLETED }] *)
Definition completed_patch : UpdateTaskDto.t :=
  {| UpdateTaskDto.title := None;
     UpdateTaskDto.description := None;
     UpdateTaskDto.status := Some COMPLETED;
     UpdateTaskDto.priority := None;
     UpdateTaskDto.userId := None |}.

(** The [switch (action)] of the loop body. *)
Definition step (action taskId : string) : C StepResult :=
  if bool_decide (action = "complete") then
    and_then (call (TasksService.update taskId completed_patch)) (λ result,
    done (Updated result))
  else if bool_decide (action = "delete") then
    and_then (call (TasksService.remove taskId)) (λ result,
    done (Removed result))
  else
    res500 "InvalidActionError" "Invalid action provided"
      {| p_errorCode := "invalid_action";
         p_data := VObj [("action", VStr action)] |}.

(** [for (const taskId of taskIds) { try { .. } catch (error) { .. } }],
    from the [results] collected so far. *)
Fixpoint process (action : string) (taskIds : list string)
    (results : list Item) : C (list Item) :=
  match taskIds with
  | [] => done results
  | taskId :: rest =>
      and_then
        (catching
           (and_then (step action taskId) (λ result,
            done (results ++ [{| taskId := taskId;
                                 outcome := Succeeded result |}])%list))
           (λ error,
            done (results ++ [{| taskId := taskId;
                                 outcome := Failed (message_of error) |}])%list))
        (λ results, process action rest results)
  end.

(** [async batchProcess(operations)] with [operations = { tasks, action }].
    [!Array.isArray(taskIds)] is false for every list. *)
Definition batchProcess (taskIds : list string) (action : string) : C (list Item) :=
  if bool_decide (taskIds = []) then
    badRequestRes "No task IDs provided" (error_code "no_task_ids_provided")
  else process action taskIds [].

End TasksController.

(** Notions the further properties of the cache are stated with. *)
Module CacheSpec.
Import CacheService.

(** Every entry refers to a live object that holds a JSON-representable
    value. *)
Definition well_formed (st : State) : Prop :=
  map_Forall (λ _ item,
    ∃ v, heap st !! value item = Some v ∧ json_representable v = true)
    (cache st).

(** The values for which [JSON.stringify] returns [undefined]. *)
Definition unserializable (v : JsVal) : bool :=
  match v with
  | VUndefined | VFunction _ => true
  | _ => false
  end.

(** The entry under [key], when it has expired by [now]. *)
Definition expired (now : Z) (o : option CacheItem) : bool :=
  match o with
  | Some item => bool_decide (expiresAt item < now)
  | None => false
  end.

End CacheSpec.

(** Notions the further properties of the task service are stated with. *)
Module TaskSpecMore.
Import Store.


(** [b] is [a] but for its status and its update date. *)
Definition same_but_status (a b : Task.t) : Prop :=
  Task.id a = Task.id b ∧
  Task.title a = Task.title b ∧
  Task.description a = Task.description b ∧
  Task.priority a = Task.priority b ∧
  Task.userId a = Task.userId b ∧
  Task.createdAt a = Task.createdAt b.

(** The store answers every call. *)
Definition no_fault (w : World) : Prop :=
  save_raises (faults w) = None ∧ commit_raises (faults w) = None.

End TaskSpecMore.

(** More concrete inputs of the task service. *)
Module TaskExamplesMore.
Import Store.


Definition failing_save : Faults :=
  {| save_raises := Some (StoreError "connection lost");
     commit_raises := None |}.

End TaskExamplesMore.

(** Notions the further properties of [findAll] are stated with. *)
Module QuerySpec.

(** [q] occurs in [text]. *)
Definition contains (text q : string) : Prop :=
  ∃ before after, text = before ++ q ++ after.

(** [q] has none of the two wildcards of [LIKE], and no backslash, which
    database engines take as the escape character of a pattern. *)
Definition plain (q : string) : Prop :=
  Forall (λ c, c ≠ "%"%char ∧ c ≠ "_"%char ∧ c ≠ "\"%char)
    (list_ascii_of_string q).

(** The title or the description of the task contains [q]. *)
Definition mentions (row : Task.t) (q : string) : Prop :=
  contains (Task.title row) q ∨
  ∃ d, Task.description row = Some d ∧ contains d q.

(** A filter specification with nothing but a search query. *)
Definition search_for (q : string) : TaskFilterDto.t :=
  {| TaskFilterDto.page := None;
     TaskFilterDto.limit := None;
     TaskFilterDto.sortingOrder := None;
     TaskFilterDto.sortingColumn := None;
     TaskFilterDto.searchQuery := Some q;
     TaskFilterDto.status := None;
     TaskFilterDto.priority := None;
     TaskFilterDto.userId := None;
     TaskFilterDto.dateFrom := None;
     TaskFilterDto.dateTo := None |}.




End QuerySpec.

(** Notions the properties of the controller are stated with. *)
Module ControllerSpec.
Import ResponseHandlers.

(** The exception of [badRequestRes(message, { errorCode })]. *)
Definition bad_request (message errorCode : string) : Thrown :=
  Http {| response :=
            {| statusCode := 400;
               error := "Bad Request";
               message := message;
               errorCode := Some errorCode;
               data := Some VNull |};
          status := 400 |}.

(** The number of steps of a batch that succeeded. *)
Definition successes (results : list TasksController.Item) : nat :=
  length (List.filter
            (λ item, match TasksController.outcome item with
                     | TasksController.Succeeded _ => true
                     | TasksController.Failed _ => false
                     end) results).

(** The result of a step that failed with [error]. *)
Definition failed (error taskId : string) : TasksController.Item :=
  {| TasksController.taskId := taskId;
     TasksController.outcome := TasksController.Failed error |}.

(** The result of a completion that found no task. *)
Definition completed_nothing (taskId : string) : TasksController.Item :=
  {| TasksController.taskId := taskId;
     TasksController.outcome :=
       TasksController.Succeeded (TasksController.Updated None) |}.

End ControllerSpec.

(** * Properties *)

(** ** Invariants of computations *)

Section Preserves.
Context {S : Type} (P : S → Prop).

Lemma preserves_ret {A} (a : A) : preserves P (ret a).
Proof. by intros s. Qed.

Lemma preserves_throw {A} e : preserves P (throw e : M S A).
Proof. by intros s. Qed.

Lemma preserves_gets {A} (f : S → A) : preserves P (gets f).
Proof. by intros s. Qed.

Lemma preserves_modify (f : S → S) :
  (∀ s, P s → P (f s)) → preserves P (modify f).
Proof. intros Hf s Hs. by apply Hf. Qed.

Lemma preserves_bind {A B} (m : M S A) (k : A → M S B) :
  preserves P m → (∀ a, preserves P (k a)) → preserves P (bind m k).
Proof.
  intros Hm Hk s Hs. unfold bind. specialize (Hm s Hs).
  destruct (m s) as [[a|e] s']; cbn in *; [by apply Hk|done].
Qed.

Lemma preserves_try_catch {A} (body : M S A) handler :
  preserves P body → (∀ e, preserves P (handler e)) →
  preserves P (try_catch body handler).
Proof.
  intros Hm Hh s Hs. unfold try_catch. specialize (Hm s Hs).
  destruct (body s) as [[a|e] s']; cbn in *; [done|by apply Hh].
Qed.

Lemma preserves_for_of {A} (xs : list A) (body : A → M S unit) :
  (∀ x, preserves P (body x)) → preserves P (for_of xs body).
Proof.
  intros Hbody. induction xs as [|x xs IH]; cbn.
  - apply preserves_ret.
  - apply preserves_bind; auto.
Qed.

End Preserves.

Create HintDb preserves.
#[export] Hint Resolve preserves_ret preserves_throw preserves_gets
  preserves_bind preserves_try_catch preserves_for_of : preserves.

(** ** The JSON round trip *)

Section JsonRoundTrip.

(** Induction on values that reaches the elements of arrays and the
    property values of objects. *)
Lemma JsVal_nested_ind (P : JsVal → Prop) :
  P VUndefined → P VNull → (∀ b, P (VBool b)) → (∀ n, P (VNum n)) →
  (∀ s, P (VStr s)) → (∀ f, P (VFunction f)) → (∀ d, P (VDate d)) →
  (∀ items, Forall P items → P (VArr items)) →
  (∀ props, Forall (λ p, P p.2) props → P (VObj props)) →
  ∀ v, P v.
Proof.
  intros Hu Hn Hb Hnum Hs Hf Hd Harr Hobj.
  fix IH 1. intros [| |b|n|s|f|d|items|props].
  - exact Hu.
  - exact Hn.
  - apply Hb.
  - apply Hnum.
  - apply Hs.
  - apply Hf.
  - apply Hd.
  - apply Harr. induction items as [|x xs IHxs]; constructor.
    + apply IH.
    + exact IHxs.
  - apply Hobj. induction props as [|[k x] ps IHps]; constructor.
    + apply IH.
    + exact IHps.
Qed.

Lemma Json_nested_ind (P : Json → Prop) :
  P JNull → (∀ b, P (JBool b)) → (∀ q, P (JNum q)) → (∀ s, P (JStr s)) →
  (∀ items, Forall P items → P (JArr items)) →
  (∀ members, Forall (λ m, P m.2) members → P (JObj members)) →
  ∀ j, P j.
Proof.
  intros Hn Hb Hq Hs Harr Hobj.
  fix IH 1. intros [|b|q|s|items|members].
  - exact Hn.
  - apply Hb.
  - apply Hq.
  - apply Hs.
  - apply Harr. induction items as [|x xs IHxs]; constructor.
    + apply IH.
    + exact IHxs.
  - apply Hobj. induction members as [|[k x] ms IHms]; constructor.
    + apply IH.
    + exact IHms.
Qed.

Lemma serialize_arr items :
  serialize (VArr items) = Some (JArr (map element_of items)).
Proof. reflexivity. Qed.

Lemma serialize_obj props :
  serialize (VObj props) = Some (JObj (members_of props)).
Proof.
  simpl. do 2 f_equal. induction props as [|[k x] ps IH]; [done|].
  cbn. destruct (serialize x); cbn; by rewrite IH.
Qed.

Lemma deserialize_arr items :
  deserialize (JArr items) = VArr (map deserialize items).
Proof. reflexivity. Qed.

Lemma deserialize_obj members :
  deserialize (JObj members) = VObj (map property_of members).
Proof.
  simpl. f_equal. apply map_ext. by intros [k j].
Qed.

Lemma members_of_cons k x ps :
  members_of ((k, x) :: ps) =
  match serialize x with
  | Some j => (k, j) :: members_of ps
  | None => members_of ps
  end.
Proof. unfold members_of. cbn. by destruct (serialize x). Qed.

Lemma members_of_length props :
  (length (members_of props) ≤ length props)%nat.
Proof.
  induction props as [|[k x] ps IH]; [done|].
  rewrite members_of_cons. destruct (serialize x); cbn; lia.
Qed.

Lemma element_of_fixed x :
  deserialize (element_of x) = x →
  ∃ j, serialize x = Some j ∧ deserialize j = x.
Proof.
  unfold element_of. destruct (serialize x) as [j|] eqn:Hs; cbn.
  - by exists j.
  - by destruct x.
Qed.

(** A value is serialized to a document that reads back as that value
    exactly when it is representable. *)
Lemma serialize_deserialize v :
  json_representable v = true ↔
  ∃ j, serialize v = Some j ∧ deserialize j = v.
Proof.
  induction v as [| |b|n|s|f|d|items IH|props IH] using JsVal_nested_ind.
  - split; [done | by intros (j & ? & ?)].
  - split; [by exists JNull | done].
  - split; [by exists (JBool b) | done].
  - destruct n; cbn; split; try done; try (by intros (j & [= <-] & ?)).
    by exists (JNum q).
  - split; [by exists (JStr s) | done].
  - split; [done | by intros (j & ? & ?)].
  - destruct d; cbn; split; try done; by intros (j & [= <-] & ?).
  - cbn [json_representable]. rewrite forallb_forall, serialize_arr. split.
    + intros Hall. eexists; split; [reflexivity|].
      rewrite deserialize_arr. f_equal.
      induction IH as [|x xs Hx _ IHxs]; [done|]. cbn [map].
      rewrite IHxs by (intros y Hy; apply Hall; by right). f_equal.
      destruct (proj1 Hx) as (j & Hs & Hd); [apply Hall; by left|].
      unfold element_of. by rewrite Hs.
    + intros (j & [= <-] & Hj). rewrite deserialize_arr in Hj.
      injection Hj as Hj.
      induction IH as [|x xs Hx _ IHxs]; [by intros ? []|].
      cbn [map] in Hj. injection Hj as Hx' Hxs.
      intros y [<-|Hy]; [|by apply IHxs].
      by apply Hx, element_of_fixed.
  - cbn [json_representable]. rewrite forallb_forall, serialize_obj. split.
    + intros Hall. eexists; split; [reflexivity|].
      rewrite deserialize_obj. f_equal.
      induction IH as [|[k x] ps Hx _ IHps]; [done|].
      destruct (proj1 Hx) as (j & Hs & Hd); [apply (Hall (k, x)); by left|].
      cbn in Hs, Hd. rewrite members_of_cons, Hs. cbn [map].
      unfold property_of at 1; cbn. rewrite Hd. f_equal.
      apply IHps. intros y Hy; apply Hall; by right.
    + intros (j & [= <-] & Hj). rewrite deserialize_obj in Hj.
      injection Hj as Hj.
      induction IH as [|[k x] ps Hx _ IHps]; [by intros ? []|].
      rewrite members_of_cons in Hj.
      destruct (serialize x) as [j|] eqn:Hs.
      * cbn [map] in Hj. injection Hj as Hx' Hps.
        intros y [<-|Hy]; [|by apply IHps].
        apply Hx. by exists j.
      * apply (f_equal length) in Hj. rewrite length_map in Hj. cbn in Hj.
        pose proof (members_of_length ps). lia.
Qed.

(** The copy keeps a value as it is exactly when the value is
    representable. *)
Lemma json_clone_fixed v :
  json_clone v = Return v ↔ json_representable v = true.
Proof.
  rewrite serialize_deserialize. unfold json_clone, JSON_stringify, JSON_parse.
  split.
  - destruct (serialize v) as [j|]; [|done]. intros [= Hj]. by exists j.
  - intros (j & -> & Hj). by rewrite Hj.
Qed.

(** What [JSON.parse] builds is representable. *)
Lemma deserialize_representable j : json_representable (deserialize j) = true.
Proof.
  induction j as [|b|q|s|items IH|members IH] using Json_nested_ind;
    try done.
  - rewrite deserialize_arr. cbn [json_representable].
    rewrite forallb_forall. intros v (j & <- & Hj)%in_map_iff.
    rewrite Forall_forall in IH. apply IH. by apply list_elem_of_In.
  - rewrite deserialize_obj. cbn [json_representable].
    rewrite forallb_forall. intros p ([k j] & <- & Hj)%in_map_iff.
    rewrite Forall_forall in IH. apply (IH (k, j)). by apply list_elem_of_In.
Qed.

Lemma json_clone_representable v copy :
  json_clone v = Return copy → json_representable copy = true.
Proof.
  unfold json_clone, JSON_stringify, JSON_parse.
  destruct (serialize v); [|done]. intros [= <-].
  apply deserialize_representable.
Qed.

(** ...hence a second copy changes nothing. *)
Lemma json_clone_idempotent v copy :
  json_clone v = Return copy → json_clone copy = Return copy.
Proof. intros H. eapply json_clone_fixed, json_clone_representable, H. Qed.

End JsonRoundTrip.

(** ** The cache service *)

Module CacheProperties.
Import CacheService CacheExamples.

Ltac run :=
  unfold set, get, has, parse_stringify, alloc, with_cache,
    bind, ret, throw, gets, modify; cbn.

(** [set] with a usable key and a value that serializes: the parsed copy is
    a new object, and the entry refers to it. *)
Lemma set_stores st key value copy ttlSeconds now :
  key ≠ "" →
  json_clone (deref (heap st) value) = Return copy →
  set now key value ttlSeconds st =
    (Return (),
     {| heap := <[fresh (dom (heap st)) := copy]> (heap st);
        cache := <[namespacedKey key :=
                     stored_item now ttlSeconds (fresh (dom (heap st)))]>
                   (cache st) |}).
Proof.
  intros Hkey Hclone. run.
  rewrite bool_decide_false by done. by rewrite Hclone.
Qed.

(** [get] on an entry that has not expired returns a new object holding
    the copy of the stored one, and leaves the entry. *)
Lemma get_live st key item copy now :
  cache st !! namespacedKey key = Some item →
  ¬ expiresAt item < now →
  json_clone (deref (heap st) (value item)) = Return copy →
  get now key st =
    (Return (Some (fresh (dom (heap st)))),
     {| heap := <[fresh (dom (heap st)) := copy]> (heap st);
        cache := cache st |}).
Proof.
  intros Hitem Hlive Hclone. run.
  rewrite Hitem, bool_decide_false by done. cbn. by rewrite Hclone.
Qed.

Lemma deref_insert h l v : deref (<[l := v]> h) l = v.
Proof. unfold deref. by rewrite lookup_insert_eq. Qed.

Lemma deref_insert_ne h l l' v : l ≠ l' → deref (<[l := v]> h) l' = deref h l'.
Proof. intros. unfold deref. by rewrite lookup_insert_ne. Qed.

Lemma fresh_not_live (h : gmap loc JsVal) l v :
  h !! l = Some v → l ≠ fresh (dom h).
Proof.
  intros Hl ->. apply (is_fresh (dom h)). apply elem_of_dom. by exists v.
Qed.

(** [set] then [get] before the expiry: [get] returns the JSON copy of the
    value, in an object that is neither the caller's nor the stored one;
    it does so too when the caller has written into its own object after
    the [set]; and whatever the caller writes into its own object or into
    the returned one, a later [get] returns that same copy again. *)
Lemma set_then_get st key value v copy ttlSeconds now :
  key ≠ "" →
  heap st !! value = Some v →
  json_clone v = Return copy →
  ∃ st1,
    set now key value ttlSeconds st = (Return (), st1) ∧
    ∀ later, later ≤ now + default 300 ttlSeconds * 1000 →
      (∃ returned st2,
         get later key st1 = (Return (Some returned), st2) ∧
         heap st2 !! returned = Some copy ∧
         returned ≠ value ∧
         ∀ v1 v2 again, again ≤ now + default 300 ttlSeconds * 1000 →
           ∃ returned' st3,
             get again key (mutate value v1 (mutate returned v2 st2)) =
               (Return (Some returned'), st3) ∧
             heap st3 !! returned' = Some copy) ∧
      (∀ v1, ∃ returned st2,
         get later key (mutate value v1 st1) = (Return (Some returned), st2) ∧
         heap st2 !! returned = Some copy).
Proof.
  intros Hkey Hv Hclone.
  set (stored := fresh (dom (heap st))).
  set (st1 := {| heap := <[stored := copy]> (heap st);
                 cache := <[namespacedKey key :=
                              stored_item now ttlSeconds stored]> (cache st) |}).
  set (returned := fresh (dom (heap st1))).
  set (st2 := {| heap := <[returned := copy]> (heap st1); cache := cache st1 |}).
  assert (Hstored : stored ≠ value) by (symmetry; by eapply fresh_not_live).
  assert (Hreturned : returned ≠ stored).
  { apply not_eq_sym, (fresh_not_live _ _ copy), lookup_insert_eq. }
  assert (Hitem : ∀ h, cache {| heap := h; cache := cache st1 |}
                         !! namespacedKey key
                       = Some (stored_item now ttlSeconds stored)).
  { intros h. apply lookup_insert_eq. }
  assert (Hcopy : json_clone copy = Return copy)
    by (by eapply json_clone_idempotent).
  exists st1. split.
  { apply set_stores; [done|]. unfold deref. by rewrite Hv. }
  intros later Hlater. split.
  - exists returned, st2. split; [|split; [|split]].
    + apply (get_live st1 key _ copy later (Hitem _)); cbn; [lia|].
      by rewrite deref_insert.
    + apply lookup_insert_eq.
    + apply not_eq_sym, (fresh_not_live _ _ v). cbn.
      by rewrite lookup_insert_ne.
    + intros v1 v2 again Hagain.
      eexists _, _. split.
      * apply (get_live _ key _ copy again (Hitem _)); cbn; [lia|].
        rewrite !deref_insert_ne, deref_insert by done. done.
      * apply lookup_insert_eq.
  - intros v1. eexists _, _. split.
    + apply (get_live _ key _ copy later (Hitem _)); cbn; [lia|].
      rewrite deref_insert_ne, deref_insert by done. done.
    + apply lookup_insert_eq.
Qed.

(** An entry that is missing or expired is deleted by [has]; deleting a
    missing entry changes nothing. *)
Lemma with_cache_delete_missing st k :
  cache st !! k = None → with_cache (base.delete k) st = st.
Proof.
  intros Hk. destruct st as [h c]. unfold with_cache; cbn in *.
  f_equal. by apply delete_id.
Qed.

Lemma get_absent st key now :
  cache st !! namespacedKey key = None → get now key st = (Return None, st).
Proof. intros Hk. run. by rewrite Hk. Qed.

Lemma get_expired st key item now :
  cache st !! namespacedKey key = Some item →
  expiresAt item < now →
  get now key st =
    (Return None, with_cache (base.delete (namespacedKey key)) st).
Proof. intros Hk Hexp. run. by rewrite Hk, bool_decide_true. Qed.

Lemma has_absent st key now :
  cache st !! namespacedKey key = None →
  has now key st =
    (Return false, with_cache (base.delete (namespacedKey key)) st).
Proof. intros Hk. run. by rewrite Hk. Qed.

Lemma has_expired st key item now :
  cache st !! namespacedKey key = Some item →
  expiresAt item < now →
  has now key st =
    (Return false, with_cache (base.delete (namespacedKey key)) st).
Proof. intros Hk Hexp. run. by rewrite Hk, bool_decide_true. Qed.

Lemma has_live st key item now :
  cache st !! namespacedKey key = Some item →
  ¬ expiresAt item < now →
  has now key st = (Return true, st).
Proof. intros Hk Hexp. run. by rewrite Hk, bool_decide_false. Qed.

(** C8. [get] returns absent for a key that was never set; for an entry
    whose expiry is in the past, [get] returns absent and removes the
    entry. [has] makes the same test: false for a missing or an expired
    entry, and the expired entry is removed. So a value stored by [set]
    whose TTL has elapsed shows through neither of them. *)
Theorem get_has_hide_expired (st : State) (key : string) (now : Z) :
  let k := namespacedKey key in
  let swept := with_cache (base.delete k) st in
  (cache st !! k = None →
     get now key st = (Return None, st) ∧
     has now key st = (Return false, st)) ∧
  (∀ item, cache st !! k = Some item → expiresAt item < now →
     get now key st = (Return None, swept) ∧
     has now key st = (Return false, swept) ∧
     cache swept !! k = None) ∧
  (∀ value copy ttlSeconds at_,
     key ≠ "" →
     json_clone (deref (heap st) value) = Return copy →
     at_ + default 300 ttlSeconds * 1000 < now →
     ∃ st1 st2,
       set at_ key value ttlSeconds st = (Return (), st1) ∧
       is_Some (cache st1 !! k) ∧
       get now key st1 = (Return None, st2) ∧
       has now key st1 = (Return false, st2) ∧
       cache st2 !! k = None).
Proof.
  intros k swept. split; [|split].
  - intros Hk. split; [by apply get_absent|].
    rewrite has_absent by done. by rewrite with_cache_delete_missing.
  - intros item Hk Hexp. split; [by eapply get_expired|].
    split; [by eapply has_expired|]. apply lookup_delete_eq.
  - intros value copy ttlSeconds at_ Hkey Hclone Hexp.
    eexists _, _. split; [by apply set_stores|].
    split; [cbn; by rewrite lookup_insert_eq|].
    split; [|split].
    + eapply get_expired; cbn; [apply lookup_insert_eq|done].
    + eapply has_expired; cbn; [apply lookup_insert_eq|done].
    + apply lookup_delete_eq.
Qed.

Lemma get_has_hide_expired_witness :
  (get 2000 "k" expired_state =
     (Return None, with_cache (base.delete "app:k") expired_state) ∧
   has 2000 "k" expired_state =
     (Return false, with_cache (base.delete "app:k") expired_state) ∧
   cache (with_cache (base.delete "app:k") expired_state) !! "app:k" = None) ∧
  (get 2000 "other" expired_state = (Return None, expired_state) ∧
   has 2000 "other" expired_state = (Return false, expired_state)) ∧
  (∃ st1 st2,
     set 0 "k" 1%positive (Some 1) (caller_state plain_object) = (Return (), st1) ∧
     is_Some (cache st1 !! "app:k") ∧
     get 1001 "k" st1 = (Return None, st2) ∧
     has 1001 "k" st1 = (Return false, st2) ∧
     cache st2 !! "app:k" = None).
Proof.
  split; [|split].
  - apply (proj1 (proj2 (get_has_hide_expired expired_state "k" 2000))
             {| value := 1%positive; expiresAt := 1000 |});
      [reflexivity | cbn; lia].
  - apply (proj1 (get_has_hide_expired expired_state "other" 2000)).
    reflexivity.
  - apply (proj2 (proj2 (get_has_hide_expired (caller_state plain_object)
                           "k" 1001))
             1%positive plain_object (Some 1) 0);
      [discriminate | reflexivity | cbn; lia].
Defined.



(** The caller changes its object after [set], and the object it got from
    [get]: the next [get] still returns what was set. *)
Example set_get_ignores_mutation :
  ∃ st1 returned st2 returned' st3,
    set 0 "k" 1%positive None (caller_state plain_object) = (Return (), st1) ∧
    get 1 "k" (mutate 1%positive (VStr "changed") st1) =
      (Return (Some returned), st2) ∧
    get 2 "k" (mutate returned VNull st2) = (Return (Some returned'), st3) ∧
    heap st3 !! returned' = Some plain_object.
Proof.
  eexists _, _, _, _, _. split; [|split; [|split]].
  - vm_compute. reflexivity.
  - vm_compute. reflexivity.
  - vm_compute. reflexivity.
  - vm_compute. reflexivity.
Qed.


(** C10. The copies that [set] and [get] make are JSON round trips: [get]
    returns the JSON copy of what was set, which equals it exactly when the
    value is JSON-representable. A property whose value is [undefined] or a
    function is dropped, and a [Date] comes back as a string. *)
Theorem set_get_is_json_round_trip :
  (∀ st key value v copy ttlSeconds now later,
     key ≠ "" →
     heap st !! value = Some v →
     json_clone v = Return copy →
     later ≤ now + default 300 ttlSeconds * 1000 →
     ∃ st1 returned st2,
       set now key value ttlSeconds st = (Return (), st1) ∧
       get later key st1 = (Return (Some returned), st2) ∧
       heap st2 !! returned = Some copy ∧
       (copy = v ↔ json_representable v = true)) ∧
  json_clone (VObj [("a", VNum (Finite 1)); ("b", VUndefined)]) =
    Return (VObj [("a", VNum (Finite 1))]) ∧
  json_clone (VObj [("a", VNum (Finite 1)); ("f", VFunction "f")]) =
    Return (VObj [("a", VNum (Finite 1))]) ∧
  json_clone dated_object =
    Return (VObj [("at", VStr "2024-01-01T00:00:00.000Z")]).
Proof.
  split; [|done].
  intros st key value v copy ttlSeconds now later Hkey Hv Hclone Hlater.
  destruct (set_then_get st key value v copy ttlSeconds now)
    as (st1 & Hset & Hget); try done.
  destruct (Hget later Hlater) as [(returned & st2 & Hget' & Hcopy & _) _].
  exists st1, returned, st2. repeat split; try done.
  - intros ->. by apply json_clone_fixed.
  - intros Hrep%json_clone_fixed. congruence.
Qed.

Lemma set_get_is_json_round_trip_witness :
  ∃ st1 returned st2,
    set 0 "k" 1%positive None (caller_state lossy_object) = (Return (), st1) ∧
    get 1 "k" st1 = (Return (Some returned), st2) ∧
    heap st2 !! returned =
      Some (VObj [("a", VNum (Finite 1));
                  ("at", VStr "2024-01-01T00:00:00.000Z")]) ∧
    (VObj [("a", VNum (Finite 1)); ("at", VStr "2024-01-01T00:00:00.000Z")]
       = lossy_object ↔ json_representable lossy_object = true).
Proof.
  apply (proj1 set_get_is_json_round_trip (caller_state lossy_object) "k"
           1%positive lossy_object _ None 0 1);
    [discriminate | reflexivity | reflexivity | cbn; lia].
Defined.

End CacheProperties.

(** ** The task service *)

Module TaskProperties.
Import Store TasksService TaskExamples TaskSpec.

Ltac run :=
  unfold create, update, remove, findOne, batchProcessTasks,
    repository_delete, repository_findOne, repository_save,
    repository_create, Object_assign, read_object, new_object,
    execute_update, execute_delete, commitTransaction, rollbackTransaction,
    startTransaction, connect, queue_add, record,
    try_catch, bind, ret, throw, gets, modify; cbn.

Lemma remove_missing id w :
  tasks w !! id = None →
  remove id w = (Throw (not_found id), with_tasks (base.delete id) w).
Proof. intros Hid. run. by rewrite Hid. Qed.

Lemma remove_existing id row w :
  tasks w !! id = Some row →
  remove id w = (Return ("Task with ID " ++ id ++ " deleted successfully"),
                 with_tasks (base.delete id) w).
Proof. intros Hid. run. by rewrite Hid. Qed.

(** C6. [remove] raises [NotFoundException] exactly when the delete
    affected no row, which is when no task has the id; when a task has it,
    [remove] returns, and [findOne] then finds nothing. *)
Theorem remove_not_found_iff_no_row (id : string) (w : World) :
  ((remove id w).1 = Throw (not_found id) ↔
     (repository_delete id w).1 = Return 0%nat) ∧
  ((repository_delete id w).1 = Return 0%nat ↔ tasks w !! id = None) ∧
  (∀ e, (remove id w).1 = Throw e → e = not_found id) ∧
  (∀ row, tasks w !! id = Some row →
     ∃ message w',
       remove id w = (Return message, w') ∧
       (repository_delete id w).1 = Return 1%nat ∧
       tasks w' !! id = None ∧
       findOne id w' = (Return None, w')).
Proof.
  destruct (tasks w !! id) as [row|] eqn:Hid.
  - rewrite (remove_existing _ _ _ Hid). run. rewrite Hid. cbn.
    repeat split; try done.
    intros row' _. eexists _, _. split; [done|]. split; [done|].
    cbn. rewrite lookup_delete_eq. done.
  - rewrite (remove_missing _ _ Hid). run. rewrite Hid. cbn.
    repeat split; try done. by intros e [= <-].
Qed.

Lemma remove_not_found_iff_no_row_witness :
  ∃ message w',
    remove "2" three_tasks = (Return message, w') ∧
    (repository_delete "2" three_tasks).1 = Return 1%nat ∧
    tasks w' !! "2" = None ∧
    findOne "2" w' = (Return None, w').
Proof.
  apply (proj2 (proj2 (proj2 (remove_not_found_iff_no_row "2" three_tasks)))
           (row "2" COMPLETED 20)).
  reflexivity.
Defined.

Lemma batchProcessTasks_complete taskIds :
  batchProcessTasks taskIds "complete" =
    (updated ←' execute_update complete
                  (λ id row, bool_decide (id ∈ taskIds) &&
                             status_is_not COMPLETED row);
     for_of taskIds (λ taskId,
       queue_add "task-status-update"
         {| taskId := Some taskId; status := Some COMPLETED |});;'
     ret (Updated updated)).
Proof. unfold batchProcessTasks. by rewrite bool_decide_true. Qed.

Lemma batchProcessTasks_delete taskIds :
  batchProcessTasks taskIds "delete" =
    (deleted ←' execute_delete (λ id _, bool_decide (id ∈ taskIds));
     ret (Deleted deleted)).
Proof.
  unfold batchProcessTasks.
  rewrite bool_decide_false by done. by rewrite bool_decide_true.
Qed.

(** The rows a set-based statement on an id list selects. *)
Lemma size_selected_ids (m : gmap string Task.t) (taskIds : list string) :
  size (filter (λ kv : string * Task.t, bool_decide (kv.1 ∈ taskIds)) m)
  = size (dom m ∩ list_to_set taskIds).
Proof.
  rewrite <- size_dom. f_equal. apply dom_filter_L. intros i.
  rewrite elem_of_intersection, elem_of_dom, elem_of_list_to_set.
  unfold is_Some. cbn. split.
  - intros [[x Hx] Hi]. exists x. split; [done|]. by apply bool_decide_pack.
  - intros (x & Hx & Hi%bool_decide_unpack). eauto.
Qed.

(** C7. A batch delete does not fail on ids that do not exist: one
    statement deletes the rows of the listed ids, nothing reaches the
    queue, and the count returned is the number of listed ids that had a
    row; a single [remove] of a missing id raises. *)
Theorem batch_delete_reports_existing (taskIds : list string) (w : World) :
  taskIds ≠ [] →
  ∃ w',
    batchProcessTasks taskIds "delete" w =
      (Return (Deleted (size (dom (tasks w) ∩ list_to_set taskIds))), w') ∧
    history w' = history w ∧
    queue w' = queue w ∧
    (∀ id, tasks w' !! id =
             if decide (id ∈ taskIds) then None else tasks w !! id) ∧
    (∀ id, id ∈ taskIds → tasks w !! id = None →
           (remove id w).1 = Throw (not_found id)).
Proof.
  intros _. eexists. split; [|split; [|split; [|split]]].
  - rewrite batchProcessTasks_delete. run.
    rewrite size_selected_ids. reflexivity.
  - done.
  - done.
  - intros id. cbn. rewrite map_lookup_filter. cbn.
    destruct (tasks w !! id) as [row|]; cbn; case_decide as Hid; try done.
    + rewrite option_guard_False; [done|].
      rewrite bool_decide_spec. tauto.
    + rewrite option_guard_True; [done|]. by rewrite bool_decide_spec.
  - intros id _ Hid. by rewrite remove_missing.
Qed.

Lemma batch_delete_reports_existing_witness :
  ∃ w',
    batchProcessTasks ["1"; "9"; "3"] "delete" three_tasks =
      (Return (Deleted (size (dom (tasks three_tasks)
                              ∩ list_to_set ["1"; "9"; "3"]))), w') ∧
    history w' = history three_tasks ∧
    queue w' = queue three_tasks ∧
    (∀ id, tasks w' !! id =
             if decide (id ∈ ["1"; "9"; "3"]) then None
             else tasks three_tasks !! id) ∧
    (∀ id, id ∈ ["1"; "9"; "3"] → tasks three_tasks !! id = None →
           (remove id three_tasks).1 = Throw (not_found id)).
Proof.
  apply (batch_delete_reports_existing ["1"; "9"; "3"] three_tasks).
  discriminate.
Defined.

Ltac queue_same :=
  unfold queue, status_update; cbn; rewrite ?omap_app; cbn;
  by rewrite ?app_nil_r.

Lemma queue_app w es :
  queue {| tasks := tasks w; users := users w; objects := objects w;
           history := history w ++ es; clock := clock w;
           faults := faults w |}
  = (queue w ++ omap (λ e, match e with
                           | QueueAdd n d => Some (n, d)
                           | _ => None
                           end) es)%list.
Proof. unfold queue. cbn. by rewrite omap_app. Qed.

(** The loop of the batch completion: one job per listed id, whatever the
    table holds. *)
Lemma for_of_queue_add taskIds w :
  ∃ w',
    for_of taskIds (λ taskId,
      queue_add "task-status-update"
        {| taskId := Some taskId; status := Some COMPLETED |}) w
    = (Return (), w') ∧
    tasks w' = tasks w ∧
    queue w' = (queue w ++ map (λ id, status_update id COMPLETED) taskIds)%list.
Proof.
  revert w. induction taskIds as [|id ids IH]; intros w.
  - exists w. cbn. by rewrite app_nil_r.
  - cbn [for_of]. unfold bind at 1. unfold queue_add at 1, record, modify.
    match goal with |- context [for_of ids _ ?w1] =>
      destruct (IH w1) as (w' & -> & Htasks & Hqueue) end.
    exists w'. split; [done|]. split; [done|].
    rewrite Hqueue, queue_app. cbn. by rewrite <- app_assoc.
Qed.

(** What [batchProcessTasks(taskIds, "complete")] does on any table. *)
Lemma batch_complete_behaviour taskIds w :
  ∃ w',
    batchProcessTasks taskIds "complete" w =
      (Return (Updated (size (filter
                 (λ kv : string * Task.t,
                    bool_decide (kv.1 ∈ taskIds) &&
                    status_is_not COMPLETED kv.2) (tasks w)))), w') ∧
    queue w' = (queue w ++ map (λ id, status_update id COMPLETED) taskIds)%list.
Proof.
  rewrite batchProcessTasks_complete.
  unfold execute_update, bind, gets, modify, ret. cbn -[queue_add].
  match goal with |- context [for_of taskIds _ ?w1] =>
    destruct (for_of_queue_add taskIds w1) as (w' & -> & _ & Hqueue) end.
  exists w'. split; [done|]. by rewrite Hqueue.
Qed.

(** C3, on the code. For the three tasks of which the second is already
    completed, the statement rewrites the first and the third and leaves
    the second as it is, and the count returned is 2; but the loop that
    follows enqueues a job for each of the three listed ids, the completed
    one included. *)
Theorem batch_complete_enqueues_for_completed :
  ∃ w',
    batchProcessTasks ["1"; "2"; "3"] "complete" three_tasks =
      (Return (Updated 2), w') ∧
    tasks w' !! "2" = tasks three_tasks !! "2" ∧
    Task.status <$> tasks w' !! "1" = Some (Some COMPLETED) ∧
    Task.status <$> tasks w' !! "3" = Some (Some COMPLETED) ∧
    queue w' = [status_update "1" COMPLETED;
                status_update "2" COMPLETED;
                status_update "3" COMPLETED].
Proof.
  eexists. split; [|split; [|split; [|split]]].
  - vm_compute. reflexivity.
  - vm_compute. reflexivity.
  - vm_compute. reflexivity.
  - vm_compute. reflexivity.
  - vm_compute. reflexivity.
Qed.

(** [update] compares the status of the merged object with the status of
    that same object after the save: on a table whose rows are stored under
    their ids, nothing is ever enqueued. *)
Lemma update_never_enqueues id dto w :
  keyed w → queue (update id dto w).2 = queue w.
Proof.
  intros Hkeyed. run.
  destruct (tasks w !! id) as [row|] eqn:Hid; cbn; [|queue_same].
  rewrite lookup_insert_eq. cbn. rewrite lookup_insert_eq. cbn.
  destruct (save_raises (faults w)) as [e|]; cbn; [queue_same|].
  rewrite lookup_insert_eq. cbn.
  destruct (bool_decide (default (Task.userId row) (UpdateTaskDto.userId dto)
                           ∈ users w)); cbn; [|queue_same].
  rewrite (Hkeyed _ _ Hid). cbn. rewrite Hid. cbn.
  destruct (bool_decide (merge row dto = row)); cbn;
    rewrite lookup_insert_eq; cbn;
    (rewrite bool_decide_false by (intros Hne; by apply Hne)); cbn;
    destruct (commit_raises (faults w)); cbn; queue_same.
Qed.

(** *** Rows stay under their ids *)

Lemma keyed_with_objects f w : keyed w → keyed (with_objects f w).
Proof. done. Qed.

Lemma keyed_insert i row w :
  Task.id row = Some i → keyed w → keyed (with_tasks <[i := row]> w).
Proof. intros Hi Hw. by apply map_Forall_insert_2. Qed.

Lemma preserves_keyed_record e : preserves keyed (record e).
Proof. by apply preserves_modify. Qed.

Lemma preserves_keyed_new_object o : preserves keyed (new_object o).
Proof. by intros w. Qed.

Lemma preserves_keyed_read_object l : preserves keyed (read_object l).
Proof.
  unfold read_object. apply preserves_bind; [auto with preserves|].
  intros [o|]; auto with preserves.
Qed.

#[local] Hint Resolve preserves_keyed_record preserves_keyed_new_object
  preserves_keyed_read_object : preserves.

Lemma preserves_keyed_save task : preserves keyed (repository_save task).
Proof.
  intros w Hw.
  unfold repository_save, read_object, bind, gets, ret, throw, modify. cbn.
  destruct (save_raises (faults w)); [done|]. cbn.
  destruct (objects w !! task) as [o|]; cbn; [|done].
  destruct (bool_decide (Task.userId o ∈ users w)); cbn; [|done].
  destruct (Task.id o) as [i|] eqn:Hi; cbn.
  - destruct (tasks w !! i) as [old|] eqn:Hold; cbn.
    + destruct (bool_decide (o = old)); cbn; [done|].
      apply keyed_with_objects, keyed_insert; [|done]. exact (Hw i old Hold).
    + by apply keyed_with_objects, keyed_insert.
  - by apply keyed_with_objects, keyed_insert.
Qed.

#[local] Hint Resolve preserves_keyed_save : preserves.

Lemma preserves_keyed_delete id : preserves keyed (repository_delete id).
Proof.
  intros w Hw. unfold repository_delete, bind, gets, modify, ret. cbn.
  by apply map_Forall_delete.
Qed.

Lemma preserves_keyed_execute_update set selected :
  preserves keyed (execute_update set selected).
Proof.
  intros w Hw. unfold execute_update, bind, gets, modify, ret. cbn.
  unfold keyed, with_tasks. cbn. intros i row. rewrite map_lookup_imap.
  destruct (tasks w !! i) as [old|] eqn:Hold; cbn; [|done].
  intros [= <-]. destruct (selected i old); cbn; exact (Hw i old Hold).
Qed.

Lemma preserves_keyed_execute_delete selected :
  preserves keyed (execute_delete selected).
Proof.
  intros w Hw. unfold execute_delete, bind, gets, modify, ret. cbn.
  unfold keyed, with_tasks. cbn.
  intros i row [Hrow _]%map_lookup_filter_Some. exact (Hw i row Hrow).
Qed.

#[local] Hint Resolve preserves_keyed_delete preserves_keyed_execute_update
  preserves_keyed_execute_delete : preserves.

(** Splits a computation along its binds, handlers and branches. *)
Ltac preserve :=
  repeat match goal with
         | |- preserves _ (bind _ _) => apply preserves_bind; [|intros ?]
         | |- preserves _ (try_catch _ _) =>
             apply preserves_try_catch; [|intros ?]
         | |- preserves _ (for_of _ _) => apply preserves_for_of; intros ?
         | |- preserves _ (match ?x with _ => _ end) => destruct x
         | |- preserves _ _ => solve [auto with preserves]
         end.

(** The mutations of the service keep every row under its id. *)
Lemma create_preserves_keyed dto : preserves keyed (create dto).
Proof.
  unfold create, connect, startTransaction, commitTransaction,
    rollbackTransaction, repository_create, queue_add.
  preserve.
Qed.

Lemma update_preserves_keyed id dto : preserves keyed (update id dto).
Proof.
  unfold update, findOne, repository_findOne, Object_assign, connect,
    startTransaction, commitTransaction, rollbackTransaction, queue_add.
  preserve. by apply preserves_modify.
Qed.

Lemma remove_preserves_keyed id : preserves keyed (remove id).
Proof. unfold remove. preserve. Qed.

Lemma batchProcessTasks_preserves_keyed taskIds action :
  preserves keyed (batchProcessTasks taskIds action).
Proof. unfold batchProcessTasks, queue_add. preserve. Qed.

Example three_tasks_keyed : keyed three_tasks.
Proof. apply (bool_decide_unpack _). vm_compute. reflexivity. Qed.

(** C2, on the code. The first task is pending; [update] with the status
    COMPLETED persists the new status and enqueues nothing. *)
Theorem update_status_change_enqueues_nothing :
  ∃ task w',
    update "1" (status_patch COMPLETED) three_tasks = (Return (Some task), w') ∧
    Task.status <$> tasks three_tasks !! "1" = Some (Some PENDING) ∧
    Task.status <$> tasks w' !! "1" = Some (Some COMPLETED) ∧
    history w' = [Connect; StartTransaction; CommitTransaction] ∧
    queue w' = [].
Proof.
  eexists _, _. split; [|split; [|split; [|split]]].
  - vm_compute. reflexivity.
  - vm_compute. reflexivity.
  - vm_compute. reflexivity.
  - vm_compute. reflexivity.
  - vm_compute. reflexivity.
Qed.

(** [create] calls [save] on the new entity object in [before_save]. *)
Lemma create_reaches_save dto w :
  (connect;;' startTransaction;;' repository_create dto) w =
    (Return (fresh (dom (objects w))), before_save dto w).
Proof.
  run. unfold with_objects, before_save. cbn. by rewrite <- app_assoc.
Qed.

(** C1. If the save of [create] raises, the transaction is rolled back,
    no job is enqueued and the exception reaches the caller. If the save
    succeeds, exactly one [task-status-update] job with the id and the
    status of the new task is enqueued, and it is enqueued before the
    commit (whether the commit then succeeds or raises). *)
Theorem create_rolls_back_or_enqueues_once (dto : CreateTaskDto.t) (w : World) :
  let task := fresh (dom (objects w)) in
  (∀ e w1, repository_save task (before_save dto w) = (Throw e, w1) →
     ∃ w',
       create dto w = (Throw e, w') ∧
       history w' =
         (history w ++ [Connect; StartTransaction; RollbackTransaction])%list ∧
       queue w' = queue w ∧
       tasks w' = tasks w) ∧
  (∀ savedTask w1,
     repository_save task (before_save dto w) = (Return savedTask, w1) →
     ∃ saved id status r w',
       objects w1 !! savedTask = Some saved ∧
       Task.id saved = Some id ∧
       Task.status saved = Some status ∧
       status = default PENDING (CreateTaskDto.status dto) ∧
       tasks w !! id = None ∧
       tasks w1 !! id = Some saved ∧
       create dto w = (r, w') ∧
       tasks w' = tasks w1 ∧
       queue w' = (queue w ++ [status_update id status])%list ∧
       match commit_raises (faults w) with
       | None =>
           r = Return savedTask ∧
           history w' =
             (history w ++
              [Connect; StartTransaction;
               QueueAdd "task-status-update"
                 {| taskId := Some id; status := Some status |};
               CommitTransaction])%list
       | Some e =>
           r = Throw e ∧
           history w' =
             (history w ++
              [Connect; StartTransaction;
               QueueAdd "task-status-update"
                 {| taskId := Some id; status := Some status |};
               RollbackTransaction])%list
       end).
Proof.
  intros task. unfold before_save.
  split.
  - intros e w1. run. fold task.
    destruct (save_raises (faults w)) as [e'|]; cbn.
    + intros [= <- <-]. eexists; split; [done|]. cbn.
      rewrite <- !app_assoc. split; [done|]. split; [queue_same|done].
    + rewrite lookup_insert_eq. cbn.
      destruct (bool_decide (CreateTaskDto.userId dto ∈ users w)); cbn; [done|].
      intros [= <- <-]. eexists; split; [done|]. cbn.
      rewrite <- !app_assoc. split; [done|]. split; [queue_same|done].
  - intros savedTask w1. run. fold task.
    destruct (save_raises (faults w)) as [e'|]; cbn; [done|].
    rewrite lookup_insert_eq. cbn.
    destruct (bool_decide (CreateTaskDto.userId dto ∈ users w)); cbn; [|done].
    intros [= <- <-]. cbn. rewrite !lookup_insert_eq. cbn.
    set (id := fresh (dom (tasks w))).
    assert (Hid : tasks w !! id = None).
    { apply not_elem_of_dom, is_fresh. }
    destruct (commit_raises (faults w)) as [e|]; cbn;
      (eexists _, id, _, _, _;
       split; [reflexivity|]; split; [reflexivity|]; split; [reflexivity|];
       split; [reflexivity|]; split; [exact Hid|];
       split; [apply lookup_insert_eq|];
       split; [reflexivity|]; split; [reflexivity|];
       split; [queue_same|]; split; [reflexivity|];
       cbn; by rewrite <- !app_assoc).
Qed.

Lemma create_rolls_back_or_enqueues_once_witness :
  (∃ w',
     create (new_task "nobody") three_tasks =
       (Throw (StoreError "violates foreign key constraint"), w') ∧
     history w' = [Connect; StartTransaction; RollbackTransaction] ∧
     queue w' = [] ∧
     tasks w' = tasks three_tasks) ∧
  (∃ w',
     create (new_task "u1") (with_faults {| save_raises := Some (StoreError "connection lost");
                                           commit_raises := None |} three_tasks) =
       (Throw (StoreError "connection lost"), w') ∧
     history w' = [Connect; StartTransaction; RollbackTransaction] ∧
     queue w' = [] ∧
     tasks w' = tasks three_tasks) ∧
  (let w1 := (repository_save 1%positive
                (before_save (new_task "u1") three_tasks)).2 in
   ∃ saved id status r w',
     objects w1 !! 1%positive = Some saved ∧
     Task.id saved = Some id ∧
     Task.status saved = Some status ∧
     status = PENDING ∧
     tasks three_tasks !! id = None ∧
     tasks w1 !! id = Some saved ∧
     create (new_task "u1") three_tasks = (r, w') ∧
     tasks w' = tasks w1 ∧
     queue w' = [status_update id status] ∧
     r = Return 1%positive ∧
     history w' =
       [Connect; StartTransaction;
        QueueAdd "task-status-update"
          {| taskId := Some id; status := Some status |};
        CommitTransaction]).
Proof.
  split; [|split].
  3: { apply (proj2 (create_rolls_back_or_enqueues_once
                       (new_task "u1") three_tasks) 1%positive).
       vm_compute. reflexivity. }
  - apply (proj1 (create_rolls_back_or_enqueues_once
                    (new_task "nobody") three_tasks)
             (StoreError "violates foreign key constraint")
             (before_save (new_task "nobody") three_tasks)).
    vm_compute. reflexivity.
  - apply (proj1 (create_rolls_back_or_enqueues_once (new_task "u1")
                    (with_faults {| save_raises := Some (StoreError "connection lost");
                                    commit_raises := None |} three_tasks))
             (StoreError "connection lost")
             (before_save (new_task "u1")
                (with_faults {| save_raises := Some (StoreError "connection lost");
                                commit_raises := None |} three_tasks))).
    vm_compute. reflexivity.
Defined.

(** C4, as amended. [findAll] validates nothing: a supplied column that is
    not the empty string is written after ["task."] into the ORDER BY
    expression as it is, whatever it is; without one the expression is
    ["task.id"]. *)
Theorem findAll_orders_by_supplied_column (payload : TaskFilterDto.t) :
  QueryBuilder.orderBys (findAll_query payload) =
    Some (match TaskFilterDto.sortingColumn payload with
          | Some column =>
              if decide (column = "") then "task.id" else "task." ++ column
          | None => "task.id"
          end,
          default ASC (TaskFilterDto.sortingOrder payload)).
Proof.
  unfold findAll_query. cbn. unfold findAll_sort, truthy.
  destruct (TaskFilterDto.sortingColumn payload) as [column|]; [|done].
  unfold bool_decide. destruct (decide_rel eq column ""); by case_decide.
Qed.

(** C4 as stated: a column name that is no field of a task reaches the
    ORDER BY expression; and no list of allowed fields whatever makes the
    claim true. *)
Lemma findAll_interpolates_unlisted_column :
  (findAll_sort (sorted_by "id; DROP TABLE tasks")
     = "task.id; DROP TABLE tasks") ∧
  ("id; DROP TABLE tasks" ∉ sortable_fields) ∧
  ¬ sort_column_allow_listed sortable_fields ∧
  ∀ allowed, ¬ sort_column_allow_listed allowed.
Proof.
  split; [reflexivity|]. split.
  { unfold sortable_fields. rewrite !elem_of_cons, elem_of_nil.
    intros H. repeat destruct H as [H|H]; discriminate || done. }
  assert (Hall : ∀ allowed, ¬ sort_column_allow_listed allowed).
  { intros allowed Hclaim.
    set (column := fresh ("" :: allowed)).
    assert (Hfresh : column ∉ "" :: allowed) by apply infinite_is_fresh.
    apply Hfresh. right.
    apply (Hclaim (sorted_by column) column); [done|].
    unfold findAll_sort, truthy, sorted_by. cbn.
    rewrite bool_decide_false; [done|].
    intros Hempty. apply Hfresh, elem_of_cons. by left. }
  split; [apply Hall | exact Hall].
Qed.

(** *** The query of [findAll] *)

Lemma selects_andWhere c qb row :
  QueryBuilder.selects (QueryBuilder.andWhere c qb) row =
  QueryBuilder.selects qb row && QueryBuilder.holds c row.
Proof.
  unfold QueryBuilder.selects, QueryBuilder.andWhere. cbn.
  rewrite forallb_app. cbn. by rewrite andb_true_r.
Qed.

(** The conditions [findAll] adds select the rows that match the filter
    specification. *)
Lemma findAll_query_selects payload row :
  QueryBuilder.selects (findAll_query payload) row = matches payload row.
Proof.
  unfold findAll_query, matches.
  change (QueryBuilder.selects (QueryBuilder.take ?n (QueryBuilder.skip ?k
            (QueryBuilder.orderBy ?c ?o ?qb))) row)
    with (QueryBuilder.selects qb row).
  unfold when_present, truthy.
  destruct (TaskFilterDto.status payload) as [status|],
           (TaskFilterDto.priority payload) as [priority|],
           (TaskFilterDto.userId payload) as [userId|],
           (TaskFilterDto.searchQuery payload) as [searchQuery|],
           (TaskFilterDto.dateFrom payload) as [dateFrom|],
           (TaskFilterDto.dateTo payload) as [dateTo|];
    repeat match goal with
           | |- context [bool_decide (?x = "")] =>
               destruct (bool_decide (x = ""))
           end;
    rewrite ?selects_andWhere; cbn;
    destruct (Task.createdAt row);
    rewrite ?andb_true_r, ?andb_false_r, ?andb_assoc; reflexivity.
Qed.

Lemma sql_leb_total a b :
  QueryBuilder.sql_leb a b = true ∨ QueryBuilder.sql_leb b a = true.
Proof.
  destruct a as [x|x|], b as [y|y|]; cbn; auto.
  - rewrite !Z.leb_le. lia.
  - apply String.leb_total.
Qed.

Global Instance precedes_total by_ : Total (QueryBuilder.precedes by_).
Proof.
  intros a b. destruct by_ as [[sort []]|]; cbn; auto using sql_leb_total.
Qed.






(** The second page of one: of the three tasks, newest first, the one in
    the middle; and all three are counted. *)
Example findAll_second_page :
  findAll second_page three_tasks =
    (Return ([row "2" COMPLETED 20], 3%nat), three_tasks).
Proof. vm_compute. reflexivity. Qed.

End TaskProperties.

(** ** More of the cache service *)

Module CacheCoverage.
Import CacheService CacheExamples CacheSpec CacheProperties.

Lemma namespacedKey_inj key key' :
  namespacedKey key = namespacedKey key' → key = key'.
Proof.
  unfold namespacedKey, namespace. intros H.
  change (String "a" (String "p" (String "p" (String ":" key))) =
          String "a" (String "p" (String "p" (String ":" key')))) in H.
  by injection H.
Qed.


Lemma json_clone_returns v :
  unserializable v = false → ∃ copy, json_clone v = Return copy.
Proof.
  unfold json_clone, JSON_stringify, JSON_parse.
  destruct v as [| |b|n|s|f|d|items|props]; try done; try (by eexists).
  - destruct n; by eexists.
  - destruct d; by eexists.
Qed.



Lemma lookup_other_key (c : gmap string CacheItem) key key' item :
  key' ≠ key →
  <[namespacedKey key := item]> c !! namespacedKey key' = c !! namespacedKey key'.
Proof.
  intros Hne. apply lookup_insert_ne. intros H. by apply namespacedKey_inj in H.
Qed.

(** A second [set] under the same key replaces the entry: the cache does
    not grow, [get] returns the second value until the second expiry,
    whatever the first one was, and no other key is touched. *)
Theorem set_overwrites (st : State) (key : string) (first second : loc)
    (v1 v2 : JsVal) (ttl1 ttl2 : option Z) (t1 t2 : Z) :
  key ≠ "" →
  heap st !! first = Some v1 →
  heap st !! second = Some v2 →
  unserializable v1 = false →
  json_representable v2 = true →
  ∃ st1 st2,
    set t1 key first ttl1 st = (Return (), st1) ∧
    set t2 key second ttl2 st1 = (Return (), st2) ∧
    size (cache st2) = size (cache st1) ∧
    (∀ later, later ≤ t2 + default 300 ttl2 * 1000 →
       ∃ returned st3,
         get later key st2 = (Return (Some returned), st3) ∧
         heap st3 !! returned = Some v2) ∧
    (∀ key', key' ≠ key →
       cache st2 !! namespacedKey key' = cache st !! namespacedKey key').
Proof.
  intros Hkey Hfirst Hsecond Hv1 Hv2.
  destruct (json_clone_returns _ Hv1) as [c1 Hc1].
  apply json_clone_fixed in Hv2.
  set (l1 := fresh (dom (heap st))).
  set (st1 := {| heap := <[l1 := c1]> (heap st);
                 cache := <[namespacedKey key := stored_item t1 ttl1 l1]>
                            (cache st) |}).
  set (l2 := fresh (dom (heap st1))).
  set (st2 := {| heap := <[l2 := v2]> (heap st1);
                 cache := <[namespacedKey key := stored_item t2 ttl2 l2]>
                            (cache st1) |}).
  assert (Hl1 : l1 ≠ second) by (symmetry; by eapply fresh_not_live).
  exists st1, st2. split; [|split; [|split; [|split]]].
  - apply set_stores; [done|]. unfold deref. by rewrite Hfirst.
  - apply (set_stores st1); [done|]. cbn. rewrite deref_insert_ne by done.
    unfold deref. by rewrite Hsecond.
  - cbn. apply map_size_insert_Some. rewrite lookup_insert_eq. by eexists.
  - intros later Hlater. eexists _, _. split.
    + eapply (get_live st2); cbn.
      * apply lookup_insert_eq.
      * cbn. lia.
      * cbn. by rewrite deref_insert.
    + apply lookup_insert_eq.
  - intros key' Hne. cbn. by rewrite !lookup_other_key.
Qed.

Lemma set_overwrites_witness :
  ∃ st1 st2,
    set 0 "k" 1%positive (Some 1)
      {| heap := {[ 1%positive := lossy_object; 2%positive := plain_object ]};
         cache := ∅ |} = (Return (), st1) ∧
    set 5000 "k" 2%positive (Some 1) st1 = (Return (), st2) ∧
    size (cache st2) = size (cache st1) ∧
    (∀ later, later ≤ 5000 + default 300 (Some 1) * 1000 →
       ∃ returned st3,
         get later "k" st2 = (Return (Some returned), st3) ∧
         heap st3 !! returned = Some plain_object) ∧
    (∀ key', key' ≠ "k" →
       cache st2 !! namespacedKey key' =
       cache {| heap := {[ 1%positive := lossy_object; 2%positive := plain_object ]};
                cache := ∅ |} !! namespacedKey key').
Proof.
  apply (set_overwrites _ "k" 1%positive 2%positive lossy_object plain_object);
    [discriminate | reflexivity | reflexivity | reflexivity | reflexivity].
Defined.



(** [delete] tells whether an entry was resident under the key, expired or
    not, and removes it: afterwards [get] and [has] find nothing at any
    time, and the other keys and the heap are as before. An expired entry no
    read has visited is reported as existing, while [has] says false. *)
Theorem delete_removes_resident_entry (st : State) (key : string) :
  ∃ st',
    delete key st =
      (Return (bool_decide (is_Some (cache st !! namespacedKey key))), st') ∧
    heap st' = heap st ∧
    (∀ now, get now key st' = (Return None, st') ∧
            has now key st' = (Return false, st')) ∧
    (∀ key', key' ≠ key →
       cache st' !! namespacedKey key' = cache st !! namespacedKey key') ∧
    (∀ now, expired now (cache st !! namespacedKey key) = true →
       (delete key st).1 = Return true ∧ (has now key st).1 = Return false).
Proof.
  exists (with_cache (base.delete (namespacedKey key)) st).
  assert (Hgone : cache (with_cache (base.delete (namespacedKey key)) st)
                    !! namespacedKey key = None) by apply lookup_delete_eq.
  split; [done|]. split; [done|]. split; [|split].
  - intros now. split; [by apply get_absent|].
    rewrite has_absent by done. by rewrite with_cache_delete_missing.
  - intros key' Hne. cbn. apply lookup_delete_ne.
    intros H. by apply namespacedKey_inj in H.
  - intros now Hexp. unfold expired in Hexp.
    destruct (cache st !! namespacedKey key) as [item|] eqn:Hitem; [|done].
    apply bool_decide_eq_true in Hexp. split.
    + unfold delete, bind, gets, modify, ret. cbn. rewrite Hitem.
      by rewrite bool_decide_true by by eexists.
    + by rewrite (has_expired st key item now Hitem Hexp).
Qed.

Lemma delete_removes_resident_entry_witness :
  (delete "k" expired_state).1 = Return true ∧
  (has 2000 "k" expired_state).1 = Return false.
Proof.
  destruct (delete_removes_resident_entry expired_state "k")
    as (st' & _ & _ & _ & _ & Hexpired).
  apply (Hexpired 2000). reflexivity.
Defined.

(** After [clear] no key is found at any time, whatever was stored. *)
Theorem clear_empties_cache (st : State) :
  ∃ st',
    clear st = (Return (), st') ∧
    heap st' = heap st ∧
    cache st' = ∅ ∧
    ∀ key now, get now key st' = (Return None, st') ∧
               has now key st' = (Return false, st').
Proof.
  exists (with_cache (λ _, ∅) st). split; [done|]. split; [done|].
  split; [done|]. intros key now.
  assert (Hnone : cache (with_cache (λ _, ∅) st) !! namespacedKey key = None)
    by apply lookup_empty.
  split; [by apply get_absent|].
  rewrite has_absent by done. by rewrite with_cache_delete_missing.
Qed.

Lemma sweep_lookup (c : gmap string CacheItem) now k :
  filter (λ kv : string * CacheItem, ¬ expiresAt kv.2 < now) c !! k =
  if expired now (c !! k) then None else c !! k.
Proof.
  rewrite map_lookup_filter. unfold expired.
  destruct (c !! k) as [item|]; cbn; [|done].
  destruct (decide (expiresAt item < now)).
  - rewrite bool_decide_true by done. by rewrite option_guard_False by tauto.
  - rewrite bool_decide_false by done. by rewrite option_guard_True.
Qed.

(** The sweep removes the entries that have expired by its time and no
    other; what [get] and [has] answer at that time is the same before and
    after it, a read after the sweep has nothing left to delete, and a
    second sweep at the same time changes nothing. *)
Theorem cleanupExpired_removes_expired_only (st : State) (now : Z) :
  ∃ st',
    cleanupExpired now st = (Return (), st') ∧
    heap st' = heap st ∧
    (∀ k, cache st' !! k =
            if expired now (cache st !! k) then None else cache st !! k) ∧
    (∀ key, (has now key st').1 = (has now key st).1 ∧
            (get now key st').1 = (get now key st).1 ∧
            (has now key st').2 = st') ∧
    cleanupExpired now st' = (Return (), st').
Proof.
  set (keep := λ kv : string * CacheItem, ¬ expiresAt kv.2 < now).
  exists (with_cache (filter keep) st).
  split; [done|]. split; [done|].
  assert (Hlookup : ∀ k, cache (with_cache (filter keep) st) !! k =
                         if expired now (cache st !! k) then None
                         else cache st !! k)
    by (intros k; apply sweep_lookup).
  split; [done|]. split.
  - intros key. specialize (Hlookup (namespacedKey key)). unfold expired in Hlookup.
    destruct (cache st !! namespacedKey key) as [item|] eqn:Hitem.
    + destruct (decide (expiresAt item < now)) as [Hexp|Hlive].
      * rewrite bool_decide_true in Hlookup by done.
        rewrite (has_expired st key item now Hitem Hexp).
        rewrite (get_expired st key item now Hitem Hexp).
        rewrite (has_absent _ key now Hlookup), (get_absent _ key now Hlookup).
        by rewrite with_cache_delete_missing.
      * rewrite bool_decide_false in Hlookup by done.
        rewrite (has_live st key item now Hitem Hlive).
        rewrite (has_live _ key item now Hlookup Hlive).
        split; [done|]. split; [|done].
        unfold get, bind, gets. rewrite Hitem, Hlookup.
        rewrite bool_decide_false by done.
        unfold parse_stringify, alloc, bind, gets, throw, ret, with_cache. cbn.
        by destruct (json_clone _).
    + rewrite (has_absent st key now Hitem), (get_absent st key now Hitem).
      rewrite (has_absent _ key now Hlookup), (get_absent _ key now Hlookup).
      by rewrite with_cache_delete_missing.
  - unfold cleanupExpired, modify, with_cache. cbn. do 2 f_equal.
    apply map_filter_id. by intros i x [_ Hkeep]%map_lookup_filter_Some.
Qed.

Lemma well_formed_alloc st v :
  well_formed st →
  well_formed {| heap := <[fresh (dom (heap st)) := v]> (heap st);
                 cache := cache st |}.
Proof.
  intros Hst k item Hitem. destruct (Hst k item Hitem) as (x & Hx & Hrep).
  exists x. split; [|done]. cbn. rewrite lookup_insert_ne; [done|].
  apply not_eq_sym. by eapply fresh_not_live.
Qed.

Lemma well_formed_delete st k :
  well_formed st → well_formed (with_cache (base.delete k) st).
Proof. intros Hst. by apply map_Forall_delete. Qed.

Lemma well_formed_set now key value ttlSeconds :
  preserves well_formed (set now key value ttlSeconds).
Proof.
  intros st Hst. destruct (decide (key = "")) as [->|Hkey]; [done|].
  destruct (json_clone (deref (heap st) value)) as [copy|e] eqn:Hclone.
  - rewrite (set_stores st key value copy ttlSeconds now Hkey Hclone). cbn.
    apply map_Forall_insert_2.
    + exists copy. cbn. rewrite lookup_insert_eq.
      split; [done|]. by eapply json_clone_representable.
    + by apply (well_formed_alloc st copy).
  - unfold set, parse_stringify, bind, gets. cbn.
    rewrite bool_decide_false by done. by rewrite Hclone.
Qed.

Lemma well_formed_get now key : preserves well_formed (get now key).
Proof.
  intros st Hst.
  destruct (cache st !! namespacedKey key) as [item|] eqn:Hitem.
  - destruct (decide (expiresAt item < now)) as [Hexp|Hlive].
    + rewrite (get_expired st key item now Hitem Hexp). by apply well_formed_delete.
    + destruct (json_clone (deref (heap st) (value item))) as [copy|e] eqn:Hclone.
      * rewrite (get_live st key item copy now Hitem Hlive Hclone).
        by apply well_formed_alloc.
      * unfold get, parse_stringify, bind, gets. cbn.
        rewrite Hitem, bool_decide_false by done. cbn. by rewrite Hclone.
  - by rewrite (get_absent st key now Hitem).
Qed.

Lemma well_formed_has now key : preserves well_formed (has now key).
Proof.
  intros st Hst.
  destruct (cache st !! namespacedKey key) as [item|] eqn:Hitem.
  - destruct (decide (expiresAt item < now)) as [Hexp|Hlive].
    + rewrite (has_expired st key item now Hitem Hexp). by apply well_formed_delete.
    + by rewrite (has_live st key item now Hitem Hlive).
  - rewrite (has_absent st key now Hitem). by apply well_formed_delete.
Qed.

(** Every entry of the cache refers to a JSON-representable value of its
    own. An empty cache has the property, and [set], [get], [has], [delete],
    [clear] and the sweep keep it, whether they return or throw. *)
Theorem cache_keeps_entries_representable :
  (∀ h, well_formed {| heap := h; cache := ∅ |}) ∧
  (∀ now key value ttlSeconds, preserves well_formed (set now key value ttlSeconds)) ∧
  (∀ now key, preserves well_formed (get now key)) ∧
  (∀ now key, preserves well_formed (has now key)) ∧
  (∀ key, preserves well_formed (delete key)) ∧
  preserves well_formed clear ∧
  (∀ now, preserves well_formed (cleanupExpired now)).
Proof.
  split; [intros h; apply map_Forall_empty|].
  split; [apply well_formed_set|]. split; [apply well_formed_get|].
  split; [apply well_formed_has|]. split; [|split].
  - intros key st Hst. by apply well_formed_delete.
  - intros st Hst. apply map_Forall_empty.
  - intros now st Hst k item [Hitem _]%map_lookup_filter_Some.
    exact (Hst k item Hitem).
Qed.

Lemma expired_state_well_formed : well_formed expired_state.
Proof.
  apply map_Forall_singleton. eexists. split; reflexivity.
Qed.

Lemma cache_keeps_entries_representable_witness :
  well_formed (set 0 "k2" 1%positive None expired_state).2 ∧
  well_formed (get 2000 "k" expired_state).2.
Proof.
  split.
  - apply (proj1 (proj2 cache_keeps_entries_representable)),
      expired_state_well_formed.
  - apply (proj1 (proj2 (proj2 cache_keeps_entries_representable))),
      expired_state_well_formed.
Defined.



End CacheCoverage.

(** ** More of the task service *)

Module TaskCoverage.
Import Store TasksService TasksServiceRest TaskExamples TaskExamplesMore
  TaskSpec TaskSpecMore.

Ltac run :=
  unfold create, update, remove, findOne, batchProcessTasks, updateStatus,
    find, findByStatus, repository_find,
    repository_delete, repository_findOne, repository_save,
    repository_create, Object_assign, read_object, new_object,
    execute_update, execute_delete, commitTransaction, rollbackTransaction,
    startTransaction, connect, queue_add, record,
    try_catch, bind, ret, throw, gets, modify; cbn.

Ltac same_queue :=
  unfold queue; cbn; rewrite ?omap_app; cbn; by rewrite ?app_nil_r.

(** [update] of an id that has no task returns null from inside the [try]:
    the transaction it started is neither committed nor rolled back, nothing
    is written and nothing enqueued. *)
Theorem update_of_missing_task_leaves_transaction_open (id : string)
    (dto : UpdateTaskDto.t) (w : World) :
  tasks w !! id = None →
  ∃ w',
    update id dto w = (Return None, w') ∧
    history w' = (history w ++ [Connect; StartTransaction])%list ∧
    tasks w' = tasks w ∧
    objects w' = objects w ∧
    queue w' = queue w.
Proof.
  intros Hid. eexists. split; [run; by rewrite Hid|]. cbn.
  rewrite <- app_assoc. repeat split; try done. same_queue.
Qed.

Lemma update_of_missing_task_leaves_transaction_open_witness :
  ∃ w',
    update "9" (status_patch COMPLETED) three_tasks = (Return None, w') ∧
    history w' = (history three_tasks ++ [Connect; StartTransaction])%list ∧
    tasks w' = tasks three_tasks ∧
    objects w' = objects three_tasks ∧
    queue w' = queue three_tasks.
Proof.
  apply (update_of_missing_task_leaves_transaction_open "9"
           (status_patch COMPLETED) three_tasks).
  reflexivity.
Defined.





(** An action other than ["complete"] and ["delete"] makes
    [batchProcessTasks] throw, before it writes or enqueues anything. *)
Theorem batch_rejects_other_actions (taskIds : list string) (action : string)
    (w : World) :
  action ≠ "complete" → action ≠ "delete" →
  batchProcessTasks taskIds action w = (Throw (Error "Invalid action"), w).
Proof.
  intros H1 H2. unfold batchProcessTasks.
  by rewrite !bool_decide_false by done.
Qed.

Lemma batch_rejects_other_actions_witness :
  batchProcessTasks ["1"] "archive" three_tasks =
    (Throw (Error "Invalid action"), three_tasks).
Proof.
  apply (batch_rejects_other_actions ["1"] "archive" three_tasks); discriminate.
Defined.





Lemma elem_of_rows (m : gmap string Task.t) t :
  t ∈ (map_to_list m).*2 ↔ ∃ id, m !! id = Some t.
Proof.
  rewrite list_elem_of_fmap. split.
  - intros ([id t'] & -> & Hin). exists id. by apply elem_of_map_to_list.
  - intros [id Hid]. exists (id, t). split; [done|]. by apply elem_of_map_to_list.
Qed.

(** [find] returns every task of the table once and changes nothing;
    [findByStatus] returns of these exactly the tasks that have the status,
    in the same order. *)
Theorem findByStatus_selects_by_status (status : TaskStatus) (w : World) :
  ∃ all found,
    find w = (Return all, w) ∧
    findByStatus status w = (Return found, w) ∧
    length all = size (tasks w) ∧
    (∀ t, t ∈ all ↔ ∃ id, tasks w !! id = Some t) ∧
    (∀ t, t ∈ found ↔
          (∃ id, tasks w !! id = Some t) ∧ Task.status t = Some status) ∧
    found `sublist_of` all.
Proof.
  eexists _, _. split; [done|]. split; [done|]. split; [|split; [|split]].
  - by rewrite length_fmap, length_map_to_list.
  - intros t. apply elem_of_rows.
  - intros t. rewrite list_elem_of_In, filter_In, <- list_elem_of_In, elem_of_rows.
    by rewrite bool_decide_eq_true.
  - induction ((map_to_list (tasks w)).*2) as [|x l IH]; [done|]. cbn.
    destruct (bool_decide _); by constructor.
Qed.

(** [updateStatus] of an id that has no task returns null and touches
    nothing. When the store answers, on a task whose owner is a user it
    writes the status into the row of that id and nothing else but the
    update date, in no transaction and without a job on the queue. *)
Theorem updateStatus_writes_status_only (id : string) (status : TaskStatus)
    (w : World) :
  (tasks w !! id = None → updateStatus id status w = (Return None, w)) ∧
  (∀ row, keyed w → save_raises (faults w) = None →
     tasks w !! id = Some row → Task.userId row ∈ users w →
     ∃ task row' w',
       updateStatus id status w = (Return (Some task), w') ∧
       tasks w' !! id = Some row' ∧
       objects w' !! task = Some row' ∧
       Task.status row' = Some status ∧
       same_but_status row row' ∧
       (∀ id', id' ≠ id → tasks w' !! id' = tasks w !! id') ∧
       history w' = history w).
Proof.
  split.
  - intros Hid. run. by rewrite Hid.
  - intros row Hkeyed Hsave Hid Huser.
    pose proof (Hkeyed _ _ Hid) as Hrowid. cbn in Hrowid. run.
    rewrite Hid. cbn. rewrite lookup_insert_eq. cbn.
    rewrite Hsave. cbn. rewrite lookup_insert_eq. cbn.
    rewrite bool_decide_true by done. cbn.
    rewrite Hrowid. cbn. rewrite Hid. cbn.
    destruct (decide (assign_status status row = row)) as [Heq|Hne].
    + rewrite bool_decide_true by done. cbn.
      eexists _, (assign_status status row), _. split; [done|]. cbn.
      split; [by rewrite Heq|]. split; [by rewrite lookup_insert_eq|].
      split; [done|]. split; [by repeat split|]. done.
    + rewrite bool_decide_false by done. cbn.
      eexists _, _, _. split; [done|]. cbn.
      split; [by rewrite lookup_insert_eq|].
      split; [by rewrite lookup_insert_eq|].
      split; [done|]. split; [by repeat split|].
      split; [|done]. intros id' Hid'. by rewrite lookup_insert_ne.
Qed.

Lemma updateStatus_writes_status_only_witness :
  updateStatus "9" COMPLETED three_tasks = (Return None, three_tasks) ∧
  (∃ task row' w',
     updateStatus "3" COMPLETED three_tasks = (Return (Some task), w') ∧
     tasks w' !! "3" = Some row' ∧
     objects w' !! task = Some row' ∧
     Task.status row' = Some COMPLETED ∧
     same_but_status (row "3" IN_PROGRESS 30) row' ∧
     (∀ id', id' ≠ "3" → tasks w' !! id' = tasks three_tasks !! id') ∧
     history w' = history three_tasks).
Proof.
  split.
  - apply (proj1 (updateStatus_writes_status_only "9" COMPLETED three_tasks)).
    reflexivity.
  - apply (proj2 (updateStatus_writes_status_only "3" COMPLETED three_tasks)
             (row "3" IN_PROGRESS 30)).
    + apply (bool_decide_unpack _). vm_compute. reflexivity.
    + reflexivity.
    + reflexivity.
    + apply (bool_decide_unpack _). vm_compute. reflexivity.
Defined.

(** When the store answers and the owner is a user, [create] adds one row
    under an id no task had, with the title, description and owner of the
    input, and leaves the other rows as they are; [findOne] of the new id
    then returns another object with the same content as the one [create]
    returned. *)
Theorem create_then_findOne (dto : CreateTaskDto.t) (w : World) :
  no_fault w →
  CreateTaskDto.userId dto ∈ users w →
  ∃ task saved id w',
    create dto w = (Return task, w') ∧
    objects w' !! task = Some saved ∧
    Task.id saved = Some id ∧
    Task.title saved = CreateTaskDto.title dto ∧
    Task.description saved = CreateTaskDto.description dto ∧
    Task.userId saved = CreateTaskDto.userId dto ∧
    tasks w !! id = None ∧
    tasks w' = <[id := saved]> (tasks w) ∧
    size (tasks w') = S (size (tasks w)) ∧
    ∃ found w'',
      findOne id w' = (Return (Some found), w'') ∧
      found ≠ task ∧
      objects w'' !! found = Some saved.
Proof.
  intros [Hsave Hcommit] Huser.
  set (id := fresh (dom (tasks w))).
  assert (Hid : tasks w !! id = None) by apply not_elem_of_dom, is_fresh.
  run. rewrite Hsave. cbn. rewrite lookup_insert_eq. cbn.
  rewrite bool_decide_true by done. cbn. rewrite !lookup_insert_eq. cbn.
  rewrite Hcommit. cbn. fold id.
  eexists _, _, id, _. split; [done|]. cbn.
  split; [by rewrite lookup_insert_eq|]. do 4 (split; [done|]).
  split; [done|]. split; [done|].
  split; [by apply map_size_insert_None|].
  rewrite lookup_insert_eq. cbn. eexists _, _. split; [done|]. cbn. split.
  - match goal with |- fresh (dom ?m) ≠ ?l =>
      assert (Hl : l ∈ dom m)
        by (apply elem_of_dom; rewrite lookup_insert_eq; eauto);
      intros Heq; apply (is_fresh (dom m)); by rewrite Heq end.
  - by rewrite lookup_insert_eq.
Qed.

Lemma create_then_findOne_witness :
  ∃ task saved id w',
    create (new_task "u1") three_tasks = (Return task, w') ∧
    objects w' !! task = Some saved ∧
    Task.id saved = Some id ∧
    Task.title saved = CreateTaskDto.title (new_task "u1") ∧
    Task.description saved = CreateTaskDto.description (new_task "u1") ∧
    Task.userId saved = CreateTaskDto.userId (new_task "u1") ∧
    tasks three_tasks !! id = None ∧
    tasks w' = <[id := saved]> (tasks three_tasks) ∧
    size (tasks w') = S (size (tasks three_tasks)) ∧
    ∃ found w'',
      findOne id w' = (Return (Some found), w'') ∧
      found ≠ task ∧
      objects w'' !! found = Some saved.
Proof.
  apply (create_then_findOne (new_task "u1") three_tasks).
  - split; reflexivity.
  - apply (bool_decide_unpack _). vm_compute. reflexivity.
Defined.

(** [remove] of an existing task deletes that one row: the table has one
    task less, every other row is as it was, and nothing is recorded for
    the query runner or the queue. *)
Theorem remove_deletes_one_row (id : string) (row : Task.t) (w : World) :
  tasks w !! id = Some row →
  ∃ message w',
    remove id w = (Return message, w') ∧
    S (size (tasks w')) = size (tasks w) ∧
    (∀ id', id' ≠ id → tasks w' !! id' = tasks w !! id') ∧
    history w' = history w.
Proof.
  intros Hid. eexists _, _. split; [run; by rewrite Hid|]. cbn.
  split; [|split; [|done]].
  - rewrite map_size_delete_Some by eauto. 
    assert (size (tasks w) ≠ 0%nat); [|lia].
    apply map_size_ne_0_lookup_2 with id. eauto.
  - intros id' Hid'. by apply lookup_delete_ne.
Qed.

Lemma remove_deletes_one_row_witness :
  ∃ message w',
    remove "2" three_tasks = (Return message, w') ∧
    S (size (tasks w')) = size (tasks three_tasks) ∧
    (∀ id', id' ≠ "2" → tasks w' !! id' = tasks three_tasks !! id') ∧
    history w' = history three_tasks.
Proof.
  apply (remove_deletes_one_row "2" (row "2" COMPLETED 20) three_tasks).
  reflexivity.
Defined.

End TaskCoverage.

(** ** More of [findAll] *)

Module QueryCoverage.
Import Store TasksService TaskExamples TaskSpec QuerySpec.







(** *** The pattern of the search *)

Lemma like_chars_percent p s :
  QueryBuilder.like_chars ("%"%char :: p) s =
  QueryBuilder.like_chars p s ||
  match s with
  | [] => false
  | _ :: s' => QueryBuilder.like_chars ("%"%char :: p) s'
  end.
Proof. by destruct s. Qed.

(** A leading [%] lets the rest of the pattern start anywhere. *)
Lemma like_chars_anywhere p s :
  QueryBuilder.like_chars ("%"%char :: p) s = true ↔
  ∃ before rest, s = (before ++ rest)%list ∧ QueryBuilder.like_chars p rest = true.
Proof.
  induction s as [|c s IH]; rewrite like_chars_percent, orb_true_iff.
  - split.
    + intros [H|H]; [|done]. by exists [], [].
    + intros (before & rest & Hs & H). symmetry in Hs.
      apply app_eq_nil in Hs as [-> ->]. by left.
  - rewrite IH. split.
    + intros [H|(before & rest & -> & H)].
      * by exists [], (c :: s).
      * by exists (c :: before), rest.
    + intros ([|c' before] & rest & Hs & H); cbn in Hs.
      * left. by rewrite Hs.
      * right. injection Hs as -> ->. by exists before, rest.
Qed.

(** Characters that are no wildcards match themselves and nothing else. *)
Lemma like_chars_literal q p s :
  Forall (λ c, c ≠ "%"%char ∧ c ≠ "_"%char) q →
  QueryBuilder.like_chars (q ++ p)%list s = true ↔
  ∃ rest, s = (q ++ rest)%list ∧ QueryBuilder.like_chars p rest = true.
Proof.
  intros Hq. revert s. induction Hq as [|c q [Hc1 Hc2] _ IH]; intros s.
  - cbn. split; [by exists s|]. by intros (rest & -> & H).
  - cbn [app QueryBuilder.like_chars].
    rewrite (proj2 (Ascii.eqb_neq _ _) Hc1).
    destruct s as [|d s].
    + split; [done|]. by intros (rest & Hs & _).
    + rewrite (proj2 (Ascii.eqb_neq _ _) Hc2). cbn [orb].
      rewrite andb_true_iff, Ascii.eqb_eq, IH. split.
      * intros [-> (rest & -> & H)]. by exists rest.
      * intros (rest & [= -> ->] & H). split; [done|]. by exists rest.
Qed.

Lemma like_chars_any s : QueryBuilder.like_chars ["%"%char] s = true.
Proof. apply like_chars_anywhere. exists s, []. by rewrite app_nil_r. Qed.

Lemma list_ascii_of_string_app a b :
  list_ascii_of_string (a ++ b) =
  (list_ascii_of_string a ++ list_ascii_of_string b)%list.
Proof. induction a as [|c a IH]; [done|]. simpl. f_equal. exact IH. Qed.

Lemma contains_chars text q :
  contains text q ↔
  ∃ before after,
    list_ascii_of_string text =
    (before ++ list_ascii_of_string q ++ after)%list.
Proof.
  split.
  - intros (before & after & ->).
    exists (list_ascii_of_string before), (list_ascii_of_string after).
    by rewrite !list_ascii_of_string_app.
  - intros (before & after & H).
    exists (string_of_list_ascii before), (string_of_list_ascii after).
    rewrite <- (string_of_list_ascii_of_string text), H.
    rewrite <- (string_of_list_ascii_of_string
                  (string_of_list_ascii before ++ q ++ string_of_list_ascii after)).
    by rewrite !list_ascii_of_string_app, !list_ascii_of_string_of_list_ascii.
Qed.

(** The pattern [%q%] of a query without wildcards matches the texts that
    contain the query. *)
Lemma like_contains text q :
  plain q → QueryBuilder.like text ("%" ++ q ++ "%") = true ↔ contains text q.
Proof.
  intros Hq. unfold QueryBuilder.like.
  assert (Hq' : Forall (λ c, c ≠ "%"%char ∧ c ≠ "_"%char)
                  (list_ascii_of_string q)).
  { eapply Forall_impl; [exact Hq|]. by intros c (? & ? & _). }
  rewrite !list_ascii_of_string_app. cbn [list_ascii_of_string app].
  rewrite like_chars_anywhere, contains_chars. split.
  - intros (before & rest & Hs & H).
    apply like_chars_literal in H as (after & -> & _); [|exact Hq'].
    by exists before, after.
  - intros (before & after & Hs). exists before, (list_ascii_of_string q ++ after)%list.
    split; [done|]. apply like_chars_literal; [exact Hq'|].
    exists after. split; [done|]. apply like_chars_any.
Qed.

Lemma like_everything text : QueryBuilder.like text "%%%" = true.
Proof.
  unfold QueryBuilder.like. cbn [list_ascii_of_string].
  apply like_chars_anywhere. exists [], (list_ascii_of_string text).
  split; [done|]. apply like_chars_anywhere.
  exists (list_ascii_of_string text), []. split; [by rewrite app_nil_r|].
  apply like_chars_any.
Qed.

Lemma like_one_character text :
  QueryBuilder.like text "%_%" = true ↔ text ≠ "".
Proof.
  unfold QueryBuilder.like. cbn [list_ascii_of_string].
  rewrite like_chars_anywhere. split.
  - intros (before & [|c rest] & Hs & H); [done|].
    intros ->. by destruct before.
  - intros Hne. destruct text as [|c text]; [done|].
    exists [], (c :: list_ascii_of_string text). split; [done|].
    cbn. apply like_chars_any.
Qed.

Lemma search_for_selects q row :
  q ≠ "" →
  QueryBuilder.selects (findAll_query (search_for q)) row =
  QueryBuilder.holds (QueryBuilder.TitleOrDescriptionLike ("%" ++ q ++ "%")) row.
Proof.
  intros Hne. unfold findAll_query, search_for, when_present, truthy.
  cbn -[QueryBuilder.holds]. rewrite bool_decide_false by done.
  cbn -[QueryBuilder.holds]. by rewrite andb_true_r.
Qed.

Lemma holds_like_mentions q row :
  plain q →
  QueryBuilder.holds (QueryBuilder.TitleOrDescriptionLike ("%" ++ q ++ "%")) row
    = true ↔ mentions row q.
Proof.
  intros Hq. cbn. rewrite orb_true_iff, (like_contains _ _ Hq).
  unfold mentions. destruct (Task.description row) as [d|].
  - rewrite (like_contains _ _ Hq). split.
    + intros [H|H]; [by left|right; by exists d].
    + intros [H|(d' & Hd & H)]; [by left|right; by simplify_eq].
  - split.
    + intros [H|H]; [by left|done].
    + intros [H|(d' & Hd & _)]; [by left|done].
Qed.

(** The search of [findAll] selects, for a query without [%], [_] and
    backslash, the tasks whose title or description contains it, where
    [LIKE] compares characters exactly. The two wildcards are passed on as
    they are: the query ["%"] selects every task, and ["_"] every task whose
    title or description is not empty. *)
Theorem findAll_search_is_containment (q : string) (row : Task.t) :
  (q ≠ "" → plain q →
     (QueryBuilder.selects (findAll_query (search_for q)) row = true ↔
        mentions row q)) ∧
  (∀ payload, TaskFilterDto.searchQuery payload = Some q → q ≠ "" → plain q →
     QueryBuilder.selects (findAll_query payload) row = true → mentions row q) ∧
  QueryBuilder.selects (findAll_query (search_for "%")) row = true ∧
  (QueryBuilder.selects (findAll_query (search_for "_")) row = true ↔
     Task.title row ≠ "" ∨ ∃ d, Task.description row = Some d ∧ d ≠ "").
Proof.
  split; [|split; [|split]].
  - intros Hne Hq. by rewrite search_for_selects, holds_like_mentions.
  - intros payload Hsearch Hne Hq Hsel. apply (holds_like_mentions q row Hq).
    rewrite TaskProperties.findAll_query_selects in Hsel.
    unfold matches in Hsel. rewrite Hsearch in Hsel.
    rewrite bool_decide_false in Hsel by done.
    rewrite !andb_true_iff in Hsel.
    destruct Hsel as [[[_ Hsel] _] _]. exact Hsel.
  - rewrite search_for_selects by done. cbn -[QueryBuilder.like].
    by rewrite like_everything.
  - rewrite search_for_selects by done. cbn -[QueryBuilder.like].
    rewrite orb_true_iff, like_one_character.
    destruct (Task.description row) as [d|].
    + rewrite like_one_character. split.
      * intros [H|H]; [by left|right; by exists d].
      * intros [H|(d' & Hd & H)]; [by left|right; by simplify_eq].
    + split.
      * intros [H|H]; [by left|done].
      * intros [H|(d' & Hd & _)]; [by left|done].
Qed.

Lemma plain_task : plain "task".
Proof. repeat constructor; discriminate. Qed.

Lemma findAll_search_is_containment_witness :
  QueryBuilder.selects (findAll_query (search_for "task")) (row "1" PENDING 10)
    = true ↔ mentions (row "1" PENDING 10) "task".
Proof.
  apply (proj1 (findAll_search_is_containment "task" (row "1" PENDING 10)));
    [discriminate | exact plain_task].
Defined.

End QueryCoverage.

(** ** The controller *)

Module ControllerCoverage.
Import Store ResponseHandlers TaskExamples TaskSpec ControllerSpec.

(** The controller's [findOne] answers a missing task with an
    [HttpException] of status 400, not 404, whose body says "Task not
    found"; a task that exists comes back in a success envelope whose
    status code is 201. Neither changes the table. *)
Theorem controller_findOne_reports_missing_as_bad_request (id : string)
    (w : World) :
  (tasks w !! id = None →
     TasksController.findOne id w =
       (Raised (bad_request "Task not found" "task_not_found"), w)) ∧
  (∀ row, tasks w !! id = Some row →
     ∃ task w',
       TasksController.findOne id w = (Done (successRes task ""), w') ∧
       objects w' !! task = Some row ∧
       tasks w' = tasks w ∧
       s_statusCode (successRes task "") = 201 ∧
       s_message (successRes task "") = "Success").
Proof.
  split.
  - intros Hid. unfold TasksController.findOne, and_then, call,
      TasksService.findOne, repository_findOne, bind, gets, ret. cbn.
    by rewrite Hid.
  - intros row Hid. unfold TasksController.findOne, and_then, call,
      TasksService.findOne, repository_findOne, new_object, bind, gets, ret. cbn.
    rewrite Hid. cbn. eexists _, _. split; [done|]. cbn.
    by rewrite lookup_insert_eq.
Qed.

Lemma controller_findOne_reports_missing_as_bad_request_witness :
  TasksController.findOne "9" three_tasks =
    (Raised (bad_request "Task not found" "task_not_found"), three_tasks) ∧
  (∃ task w',
     TasksController.findOne "1" three_tasks = (Done (successRes task ""), w') ∧
     objects w' !! task = Some (row "1" PENDING 10) ∧
     tasks w' = tasks three_tasks ∧
     s_statusCode (successRes task "") = 201 ∧
     s_message (successRes task "") = "Success").
Proof.
  split.
  - apply (proj1 (controller_findOne_reports_missing_as_bad_request
                    "9" three_tasks)). reflexivity.
  - apply (proj2 (controller_findOne_reports_missing_as_bad_request
                    "1" three_tasks) (row "1" PENDING 10)). reflexivity.
Defined.

(** One step of the loop, with its [catch], always completes, and adds one
    result for its task id. *)
Lemma guarded_step_completes action taskId results w :
  ∃ outcome w',
    catching
      (and_then (TasksController.step action taskId) (λ result,
       done (results ++ [{| TasksController.taskId := taskId;
                            TasksController.outcome :=
                              TasksController.Succeeded result |}])%list))
      (λ error,
       done (results ++ [{| TasksController.taskId := taskId;
                            TasksController.outcome :=
                              TasksController.Failed (message_of error) |}])%list)
      w
    = (Done (results ++ [{| TasksController.taskId := taskId;
                            TasksController.outcome := outcome |}])%list, w').
Proof.
  unfold catching, and_then.
  destruct (TasksController.step action taskId w) as [[result|error] w'];
    by eexists _, _.
Qed.

Lemma process_completes action taskIds results w :
  ∃ more w',
    TasksController.process action taskIds results w =
      (Done (results ++ more)%list, w') ∧
    map TasksController.taskId more = taskIds.
Proof.
  revert results w. induction taskIds as [|taskId rest IH]; intros results w.
  - exists [], w. by rewrite app_nil_r.
  - cbn [TasksController.process]. unfold and_then at 1.
    destruct (guarded_step_completes action taskId results w)
      as (outcome & w1 & ->).
    destruct (IH (results ++ [{| TasksController.taskId := taskId;
                                 TasksController.outcome := outcome |}])%list w1)
      as (more & w' & -> & Hmore).
    eexists (_ :: more), w'. rewrite <- app_assoc. split; [done|].
    cbn. by rewrite Hmore.
Qed.

(** The controller's [batchProcess] rejects an empty list with an
    [HttpException] of status 400 before it does anything. For every other
    list it never throws, whatever the action and whatever the store does:
    it returns one result per listed id, in the order of the list. *)
Theorem controller_batch_returns_one_result_per_id (taskIds : list string)
    (action : string) (w : World) :
  (taskIds = [] →
     TasksController.batchProcess taskIds action w =
       (Raised (bad_request "No task IDs provided" "no_task_ids_provided"), w)) ∧
  (taskIds ≠ [] →
     ∃ results w',
       TasksController.batchProcess taskIds action w = (Done results, w') ∧
       map TasksController.taskId results = taskIds).
Proof.
  split.
  - by intros ->.
  - intros Hne. unfold TasksController.batchProcess.
    rewrite bool_decide_false by done.
    destruct (process_completes action taskIds [] w) as (more & w' & -> & Hmore).
    by exists more, w'.
Qed.

Lemma controller_batch_returns_one_result_per_id_witness :
  TasksController.batchProcess [] "delete" three_tasks =
    (Raised (bad_request "No task IDs provided" "no_task_ids_provided"),
     three_tasks) ∧
  (∃ results w',
     TasksController.batchProcess ["1"; "9"] "delete"
       (with_faults TaskExamplesMore.failing_save three_tasks) = (Done results, w') ∧
     map TasksController.taskId results = ["1"; "9"]).
Proof.
  split.
  - apply (proj1 (controller_batch_returns_one_result_per_id [] "delete"
                    three_tasks)). reflexivity.
  - apply (proj2 (controller_batch_returns_one_result_per_id ["1"; "9"] "delete"
                    (with_faults TaskExamplesMore.failing_save three_tasks))).
    discriminate.
Defined.

Lemma step_invalid action taskId w :
  action ≠ "complete" → action ≠ "delete" →
  TasksController.step action taskId w =
    (Raised (Http
       {| response :=
            {| statusCode := 500;
               error := "InvalidActionError";
               message := "Invalid action provided";
               errorCode := Some "invalid_action";
               data := Some (VObj [("action", VStr action)]) |};
          status := 500 |}), w).
Proof.
  intros H1 H2. unfold TasksController.step.
  by rewrite !bool_decide_false by done.
Qed.

Lemma process_invalid action taskIds results w :
  action ≠ "complete" → action ≠ "delete" →
  TasksController.process action taskIds results w =
    (Done (results ++ map (failed "Invalid action provided") taskIds)%list, w).
Proof.
  intros H1 H2. revert results.
  induction taskIds as [|taskId rest IH]; intros results.
  - cbn. by rewrite app_nil_r.
  - cbn [TasksController.process]. unfold and_then at 1, catching, and_then.
    rewrite (step_invalid action taskId w H1 H2). cbn.
    rewrite IH. by rewrite <- app_assoc.
Qed.

(** An action that is neither ["complete"] nor ["delete"] reaches the
    [res500] of the [switch], and the [catch] around it takes the
    exception: the caller gets no error of status 500 but one failed result
    per listed id, with the message "Invalid action provided", and nothing
    was written. *)
Theorem controller_batch_swallows_invalid_action (taskIds : list string)
    (action : string) (w : World) :
  taskIds ≠ [] → action ≠ "complete" → action ≠ "delete" →
  TasksController.batchProcess taskIds action w =
    (Done (map (failed "Invalid action provided") taskIds), w).
Proof.
  intros Hne H1 H2. unfold TasksController.batchProcess.
  rewrite bool_decide_false by done. by rewrite process_invalid.
Qed.

Lemma controller_batch_swallows_invalid_action_witness :
  TasksController.batchProcess ["1"; "2"] "archive" three_tasks =
    (Done (map (failed "Invalid action provided") ["1"; "2"]), three_tasks).
Proof.
  apply (controller_batch_swallows_invalid_action ["1"; "2"] "archive"
           three_tasks); discriminate.
Defined.

Lemma step_delete taskId w :
  TasksController.step "delete" taskId w =
    (match tasks w !! taskId with
     | Some _ =>
         Done (TasksController.Removed
                 ("Task with ID " ++ taskId ++ " deleted successfully"))
     | None => Raised (FromService (not_found taskId))
     end, with_tasks (base.delete taskId) w).
Proof.
  unfold TasksController.step. rewrite bool_decide_false by done.
  rewrite bool_decide_true by done.
  unfold and_then, call, TasksService.remove, repository_delete,
    bind, gets, modify, ret, throw. cbn.
  by destruct (tasks w !! taskId).
Qed.

Lemma step_complete_missing taskId w :
  tasks w !! taskId = None →
  TasksController.step "complete" taskId w =
    (Done (TasksController.Updated None),
     {| tasks := tasks w; users := users w; objects := objects w;
        history := history w ++ [Connect; StartTransaction];
        clock := clock w; faults := faults w |}).
Proof.
  intros Hid. unfold TasksController.step. rewrite bool_decide_true by done.
  unfold and_then, call, TasksService.update, TasksService.findOne,
    repository_findOne, connect, startTransaction, record, try_catch,
    bind, gets, modify, ret. cbn.
  rewrite Hid. cbn. by rewrite <- app_assoc.
Qed.

Lemma process_complete_missing taskIds results w :
  (∀ id, id ∈ taskIds → tasks w !! id = None) →
  ∃ w',
    TasksController.process "complete" taskIds results w =
      (Done (results ++ map completed_nothing taskIds)%list, w') ∧
    tasks w' = tasks w ∧
    history w' =
      (history w ++ concat (map (λ _, [Connect; StartTransaction]) taskIds))%list.
Proof.
  revert results w. induction taskIds as [|taskId rest IH]; intros results w Hmiss.
  - exists w. cbn. by rewrite !app_nil_r.
  - cbn [TasksController.process]. unfold and_then at 1, catching, and_then.
    rewrite step_complete_missing by (apply Hmiss; by left). cbn.
    match goal with |- context [TasksController.process _ _ ?r ?w1] =>
      destruct (IH r w1) as (w' & -> & Htasks & Hhist) end.
    { intros id Hid. cbn. apply Hmiss. by right. }
    exists w'. rewrite <- app_assoc. split; [done|]. split; [done|].
    rewrite Hhist. cbn. by rewrite <- app_assoc.
Qed.

Lemma process_delete_missing taskIds results w :
  (∀ id, id ∈ taskIds → tasks w !! id = None) →
  ∃ w',
    TasksController.process "delete" taskIds results w =
      (Done (results ++ map (λ id, failed ("Task with ID " ++ id ++ " not found") id)
                          taskIds)%list, w') ∧
    tasks w' = tasks w ∧
    history w' = history w.
Proof.
  revert results w. induction taskIds as [|taskId rest IH]; intros results w Hmiss.
  - exists w. cbn. by rewrite !app_nil_r.
  - cbn [TasksController.process]. unfold and_then at 1, catching, and_then.
    rewrite step_delete, (Hmiss taskId) by by left. cbn.
    match goal with |- context [TasksController.process _ _ ?r ?w1] =>
      destruct (IH r w1) as (w' & -> & Htasks & Hhist) end.
    { intros id Hid. cbn. apply lookup_delete_None. right. apply Hmiss. by right. }
    exists w'. rewrite <- app_assoc. split; [done|].
    rewrite Htasks, Hhist. cbn. split; [|done].
    apply delete_id, Hmiss. by left.
Qed.

(** On ids that have no task the two actions of the controller's batch
    differ. A completion reports success with a null result for each of
    them, and each leaves behind a transaction that was started and never
    ended; a deletion reports a failure, "Task with ID .. not found", for
    each. Neither changes the table. *)
Theorem controller_batch_on_missing_tasks (taskIds : list string) (w : World) :
  taskIds ≠ [] →
  (∀ id, id ∈ taskIds → tasks w !! id = None) →
  (∃ w',
     TasksController.batchProcess taskIds "complete" w =
       (Done (map completed_nothing taskIds), w') ∧
     tasks w' = tasks w ∧
     history w' =
       (history w ++
        concat (map (λ _, [Connect; StartTransaction]) taskIds))%list) ∧
  (∃ w',
     TasksController.batchProcess taskIds "delete" w =
       (Done (map (λ id, failed ("Task with ID " ++ id ++ " not found") id)
                  taskIds), w') ∧
     tasks w' = tasks w ∧
     history w' = history w).
Proof.
  intros Hne Hmiss. unfold TasksController.batchProcess.
  rewrite bool_decide_false by done. split.
  - destruct (process_complete_missing taskIds [] w Hmiss) as (w' & -> & H).
    by exists w'.
  - destruct (process_delete_missing taskIds [] w Hmiss) as (w' & -> & H).
    by exists w'.
Qed.

Lemma controller_batch_on_missing_tasks_witness :
  (∃ w',
     TasksController.batchProcess ["8"; "9"] "complete" three_tasks =
       (Done (map completed_nothing ["8"; "9"]), w') ∧
     tasks w' = tasks three_tasks ∧
     history w' =
       (history three_tasks ++
        concat (map (λ _, [Connect; StartTransaction]) ["8"; "9"]))%list) ∧
  (∃ w',
     TasksController.batchProcess ["8"; "9"] "delete" three_tasks =
       (Done (map (λ id, failed ("Task with ID " ++ id ++ " not found") id)
                  ["8"; "9"]), w') ∧
     tasks w' = tasks three_tasks ∧
     history w' = history three_tasks).
Proof.
  apply (controller_batch_on_missing_tasks ["8"; "9"] three_tasks).
  - discriminate.
  - intros id Hid. apply list_elem_of_In in Hid.
    destruct Hid as [<-|[<-|[]]]; reflexivity.
Defined.

Lemma successes_app a b : successes (a ++ b)%list = (successes a + successes b)%nat.
Proof. unfold successes. by rewrite List.filter_app, length_app. Qed.

Lemma filter_unlisted_cons (m : gmap string Task.t) taskId rest :
  filter (λ kv : string * Task.t, ¬ bool_decide (kv.1 ∈ rest)) (base.delete taskId m)
  = filter (λ kv : string * Task.t, ¬ bool_decide (kv.1 ∈ taskId :: rest)) m.
Proof.
  apply map_eq. intros k. rewrite !map_lookup_filter.
  destruct (decide (k = taskId)) as [->|Hk].
  - rewrite lookup_delete_eq. cbn. destruct (m !! taskId); cbn; [|done].
    rewrite option_guard_False; [done|].
    intros H. apply H, bool_decide_pack. by left.
  - rewrite lookup_delete_ne by done. destruct (m !! k); cbn; [|done].
    destruct (decide (k ∈ rest)) as [Hin|Hout].
    + rewrite !option_guard_False; [done| |];
        intros H; apply H, bool_decide_pack; [by right|done].
    + rewrite !option_guard_True; [done| |];
        intros H%bool_decide_unpack; [|done].
      apply elem_of_cons in H as [?|?]; done.
Qed.

Lemma size_listed_cons (m : gmap string Task.t) taskId (rest : list string) :
  size (dom m ∩ list_to_set (taskId :: rest) : gset string) =
  ((match m !! taskId with Some _ => 1 | None => 0 end) +
   size (dom (base.delete taskId m) ∩ list_to_set rest : gset string))%nat.
Proof.
  rewrite list_to_set_cons, dom_delete_L.
  destruct (m !! taskId) as [row|] eqn:Hrow.
  - assert (Hin : taskId ∈ dom m) by (apply elem_of_dom; eauto).
    replace (dom m ∩ ({[taskId]} ∪ list_to_set rest) : gset string)
      with ({[taskId]} ∪ (dom m ∖ {[taskId]}) ∩ list_to_set rest : gset string).
    + rewrite size_union, size_singleton; [done|].
      intros x Hx%elem_of_singleton [Hx' _]%elem_of_intersection.
      apply elem_of_difference in Hx' as [_ Hx']. by apply Hx', elem_of_singleton.
    + apply set_eq. intros x.
      rewrite !elem_of_union, !elem_of_intersection, elem_of_union,
        elem_of_difference, !elem_of_singleton.
      destruct (decide (x = taskId)) as [->|]; intuition congruence.
  - assert (Hout : taskId ∉ dom m) by by apply not_elem_of_dom.
    cbn. f_equal. apply set_eq. intros x.
    rewrite !elem_of_intersection, elem_of_union, elem_of_difference,
      !elem_of_singleton.
    destruct (decide (x = taskId)) as [->|]; intuition congruence.
Qed.

Lemma process_delete_counts taskIds results w :
  ∃ more w',
    TasksController.process "delete" taskIds results w =
      (Done (results ++ more)%list, w') ∧
    tasks w' = filter (λ kv : string * Task.t, ¬ bool_decide (kv.1 ∈ taskIds))
                 (tasks w) ∧
    successes more = size (dom (tasks w) ∩ list_to_set taskIds : gset string) ∧
    history w' = history w.
Proof.
  revert results w. induction taskIds as [|taskId rest IH]; intros results w.
  - exists [], w. rewrite app_nil_r. split; [done|]. split; [|split; [|done]].
    + symmetry. apply map_filter_id. intros i x _ H%bool_decide_unpack.
      by apply elem_of_nil in H.
    + cbn. by rewrite intersection_empty_r_L, size_empty.
  - cbn [TasksController.process]. unfold and_then at 1, catching, and_then.
    rewrite step_delete. rewrite size_listed_cons, <- filter_unlisted_cons.
    destruct (tasks w !! taskId) as [row|]; cbn;
      match goal with |- context [TasksController.process _ _ ?r ?w1] =>
        destruct (IH r w1) as (more & w' & -> & Htasks & Hcount & Hhist) end;
      (eexists (_ :: more), w'; rewrite <- app_assoc; split; [done|];
       split; [done|]; split; [|done]);
      change (?x :: more) with ([x] ++ more)%list;
      rewrite successes_app, Hcount; done.
Qed.

(** The controller's loop of single [remove]s and the service's set-based
    delete do the same to the table, and the number of results the
    controller reports as succeeded is the count the service returns: the
    number of listed ids that had a task. Neither records a queue job. *)
Theorem controller_delete_agrees_with_batch_delete (taskIds : list string)
    (w : World) :
  taskIds ≠ [] →
  ∃ results w1 w2,
    TasksController.batchProcess taskIds "delete" w = (Done results, w1) ∧
    TasksService.batchProcessTasks taskIds "delete" w =
      (Return (TasksService.Deleted (successes results)), w2) ∧
    tasks w1 = tasks w2 ∧
    successes results = size (dom (tasks w) ∩ list_to_set taskIds : gset string) ∧
    history w1 = history w ∧ history w2 = history w.
Proof.
  intros Hne. unfold TasksController.batchProcess.
  rewrite bool_decide_false by done.
  destruct (process_delete_counts taskIds [] w)
    as (more & w1 & -> & Htasks & Hcount & Hhist).
  rewrite TaskProperties.batchProcessTasks_delete.
  unfold execute_delete, bind, gets, modify, ret. cbn.
  rewrite TaskProperties.size_selected_ids. exists more, w1. eexists.
  split; [done|]. rewrite Hcount. split; [done|]. by rewrite Htasks.
Qed.

Lemma controller_delete_agrees_with_batch_delete_witness :
  ∃ results w1 w2,
    TasksController.batchProcess ["1"; "9"; "1"] "delete" three_tasks =
      (Done results, w1) ∧
    TasksService.batchProcessTasks ["1"; "9"; "1"] "delete" three_tasks =
      (Return (TasksService.Deleted (successes results)), w2) ∧
    tasks w1 = tasks w2 ∧
    successes results =
      size (dom (tasks three_tasks) ∩ list_to_set ["1"; "9"; "1"] : gset string) ∧
    history w1 = history three_tasks ∧ history w2 = history three_tasks.
Proof.
  apply (controller_delete_agrees_with_batch_delete ["1"; "9"; "1"] three_tasks).
  discriminate.
Defined.




End ControllerCoverage.
